(** * Stream server: a serial-to-TCP bridge (ESPHome component)

    A shallow embedding of [components/stream_server/stream_server.cpp]
    and the properties of its line framer, client registry and bridge loop.

    Conventions of the embedding:
    - a [char] / [uint8_t] is a [byte]; a buffer passed as [(buf, len)] is the
      list of its [len] bytes;
    - [std::vector<T>] is [list T]; a [std::vector<std::unique_ptr<Client>>]
      is the list of the owned [Client] records;
    - the collaborators that are not part of the component (the UART stream,
      the TCP connections, the text sensor, the logger) are modelled by what
      the component does to them: the stream by its queues, the others by a
      trace of [Effect]s. *)

From Stdlib Require Import Strings.Byte.
From stdpp Require Import base list strings.

Open Scope byte_scope.

#[global] Instance byte_eq_decision : EqDecision byte := byte_eq_dec.

(** ** Constants of the translation unit *)

Definition BUF_SIZE : nat := 256.
Definition LINE_SIZE : nat := 80.

Definition LF : byte := x0a.  (* '\n' *)
Definition CR : byte := x0d.  (* '\r' *)
Definition NUL : byte := x00.

(** ** Line framer: [StreamServerComponent::readline] *)

Module Framer.

(** The two function-local statics of [readline]:
    [static char line[LINE_SIZE]] and [static int pos]. The guard
    [pos < LINE_SIZE-1] keeps [pos] within [0, LINE_SIZE-1], so it is a
    [nat] here. *)
Record t := mk { line : list byte; pos : nat }.

(** Statics are zero-initialised. *)
Definition init : t := {| line := replicate LINE_SIZE NUL; pos := 0 |}.

(** What a reader of a [char *] sees: the bytes from the pointer up to, and
    not including, the first zero byte. *)
Fixpoint c_str (mem : list byte) : list byte :=
  match mem with
  | [] => []
  | c :: mem' => if decide (c = NUL) then [] else c :: c_str mem'
  end.

(** [char *readline(char *buf, int len)]. The result is [None] for [NULL]
    and otherwise the string found at the returned pointer [line] at the
    moment of the return. The [return] inside the loop leaves the function:
    the bytes of [buf] behind the carriage return are not looked at. *)
Fixpoint readline (buf : list byte) (st : t) : option (list byte) * t :=
  match buf with
  | [] => (None, st)
  | c :: buf' =>
      if decide (c = LF) then readline buf' st
      else if decide (c = CR) then
        let line' := <[pos st := NUL]> (line st) in
        (Some (c_str line'), {| line := line'; pos := 0 |})
      else if decide (pos st < LINE_SIZE - 1) then
        readline buf' {| line := <[pos st := c]> (line st); pos := S (pos st) |}
      else readline buf' st
  end.

(** Feeding a byte sequence one byte per call, [readline(&c, 1)] for each
    byte in turn; the list holds the value returned by each call. *)
Fixpoint feed_calls (input : list byte) (st : t) : list (option (list byte)) :=
  match input with
  | [] => []
  | c :: rest =>
      let '(r, st') := readline [c] st in
      r :: feed_calls rest st'
  end.

(** The completed lines, in the order they were returned. *)
Definition returned_lines (input : list byte) (st : t) : list (list byte) :=
  omap id (feed_calls input st).

(** The state is well formed when the buffer has its declared size and the
    cursor leaves room for the terminator. *)
Definition wf (st : t) : Prop :=
  length (line st) = LINE_SIZE ∧ pos st < LINE_SIZE.

(** The bytes accumulated for the line in progress. *)
Definition pending (st : t) : list byte := take (pos st) (line st).

End Framer.

(** ** The framing the specification describes *)

Module LineSpec.

(** The segments of [input] that are terminated by a carriage return, in
    order, without their terminator. Bytes after the last carriage return
    belong to no completed segment. *)
Fixpoint cr_segments (input : list byte) : list (list byte) :=
  match input with
  | [] => []
  | c :: rest =>
      if decide (c = CR) then [] :: cr_segments rest
      else match cr_segments rest with
           | [] => []
           | s :: ss => (c :: s) :: ss
           end
  end.

Definition strip_lf (seg : list byte) : list byte :=
  filter (λ c, c ≠ LF) seg.

(** A segment as the specification gives it: line feeds removed, then cut
    to the first [LINE_SIZE - 1] bytes. *)
Definition spec_line (seg : list byte) : list byte :=
  take (LINE_SIZE - 1) (strip_lf seg).

Definition spec_lines (input : list byte) : list (list byte) :=
  spec_line <$> cr_segments input.

End LineSpec.


(** ** [std::partition]

    [cleanup] calls [std::partition] on a [std::vector], whose iterators are
    random access, so the bidirectional version of the algorithm runs. The
    C++ standard fixes which elements end up in front and leaves their
    order open; the order below is the one of the GNU implementation that
    the ESP8266 and ESP32 toolchains ship:
<<
      while (true) {
        while (true)
          if (first == last) return first;
          else if (pred( *first)) ++first;
          else break;
        --last;
        while (true)
          if (first == last) return first;
          else if (!pred( *last)) --last;
          else break;
        std::iter_swap(first, last);
        ++first;
      }
>>
    Iterators are indices into the vector. The loops are bounded by fuel;
    [None] means the fuel ran out or an index left the vector, and
    [partition_total] shows that neither happens. *)

Module StdAlgo.

(** How an inner loop ends: by [return first] or by [break]. *)
Inductive scan := Return (i : nat) | Break (i : nat).

Section partition.
Context {A : Type} (pred : A → bool).

Definition iter_swap (v : list A) (i j : nat) : list A :=
  match v !! i, v !! j with
  | Some x, Some y => <[j := x]> (<[i := y]> v)
  | _, _ => v
  end.

Fixpoint scan_up (fuel : nat) (v : list A) (first last : nat) : option scan :=
  match fuel with
  | 0 => None
  | S fuel =>
      if decide (first = last) then Some (Return first)
      else match v !! first with
           | Some x => if pred x then scan_up fuel v (S first) last
                       else Some (Break first)
           | None => None
           end
  end.

Fixpoint scan_down (fuel : nat) (v : list A) (first last : nat) : option scan :=
  match fuel with
  | 0 => None
  | S fuel =>
      if decide (first = last) then Some (Return first)
      else match v !! last with
           | Some x => if negb (pred x) then scan_down fuel v first (Nat.pred last)
                       else Some (Break last)
           | None => None
           end
  end.

Fixpoint partition_loop (fuel : nat) (v : list A) (first last : nat)
  : option (list A * nat) :=
  match fuel with
  | 0 => None
  | S fuel' =>
      match scan_up fuel v first last with
      | Some (Return i) => Some (v, i)
      | Some (Break first) =>
          let last := Nat.pred last in
          match scan_down fuel v first last with
          | Some (Return i) => Some (v, i)
          | Some (Break last) =>
              partition_loop fuel' (iter_swap v first last) (S first) last
          | None => None
          end
      | None => None
      end
  end.

(** [std::partition(v.begin(), v.end(), pred)]: the vector afterwards and
    the returned iterator. *)
Definition partition (v : list A) : option (list A * nat) :=
  partition_loop (S (length v)) v 0 (length v).

(** Everything of [v] at the indices in [[lo, hi)] answers [b]. *)
Definition range_is (b : bool) (v : list A) (lo hi : nat) : Prop :=
  ∀ j y, lo ≤ j < hi → v !! j = Some y → pred y = b.

End partition.

End StdAlgo.

(** ** Collaborators *)

(** An [AsyncClient *] as the TCP server hands it over: the address of the
    connection object and the peer address it reports. *)
Record AsyncClient := { handle : nat; remoteIP : string }.

#[global] Instance AsyncClient_eq_decision : EqDecision AsyncClient.
Proof. solve_decision. Defined.

(** What the component does to its collaborators, in the order it does it. *)
Inductive Effect :=
  | Log (msg : string)                     (* ESP_LOGCONFIG, ESP_LOGD *)
  | UartRead (data : list byte)            (* stream_->read_array / readBytes *)
  | UartWrite (data : list byte)           (* stream_->write_array / write *)
  | PublishState (line : list byte)        (* readline_sensor->publish_state *)
  | TcpWrite (h : nat) (data : list byte)  (* tcp_client->write(buf, len) *)
  | TcpClose (h : nat) (now : bool)        (* tcp_client->close(now) *)
  | TcpDelete (h : nat).                   (* delete tcp_client *)

#[global] Instance Effect_eq_decision : EqDecision Effect.
Proof. solve_decision. Defined.

(** The UART the component borrows. [rx] holds the bytes received and not
    yet read. Bytes keep arriving while the component runs: [incoming] is
    the schedule of arrivals, one batch (possibly empty) becoming visible at
    each call of [available()]. *)
Module Stream.

Record t := mk { rx : list byte; incoming : list (list byte) }.

Definition available (st : t) : nat * t :=
  match incoming st with
  | [] => (length (rx st), st)
  | batch :: later =>
      (length (rx st ++ batch), {| rx := rx st ++ batch; incoming := later |})
  end.

(** [read_array(buf, len)] / [readBytes(buf, len)] with [len] not above
    what [available()] reported. *)
Definition read_array (len : nat) (st : t) : list byte * t :=
  (take len (rx st), {| rx := drop len (rx st); incoming := incoming st |}).

(** All the bytes the stream will still deliver. *)
Definition backlog (st : t) : nat :=
  length (rx st) + length (concat (incoming st)).

End Stream.

(** ** [StreamServerComponent::Client] *)

Record Client := {
  tcp_client : AsyncClient;
  identifier : string;
  disconnected : bool;
}.

#[global] Instance Client_eq_decision : EqDecision Client.
Proof. solve_decision. Defined.

(** The constructor: member initialisers and the log line. The four
    callbacks it registers on the connection are [on_error],
    [on_disconnect], [on_timeout] and [on_data] below. *)
Definition new_Client (client : AsyncClient) : Client * list Effect :=
  ({| tcp_client := client;
      identifier := remoteIP client;
      disconnected := false |},
   [Log ("New client connected from " +:+ remoteIP client)]).

(** [[this](...) { this->disconnected = true; }], three times. *)
Definition on_error (c : Client) : Client :=
  {| tcp_client := tcp_client c; identifier := identifier c; disconnected := true |}.
Definition on_disconnect (c : Client) : Client :=
  {| tcp_client := tcp_client c; identifier := identifier c; disconnected := true |}.
Definition on_timeout (c : Client) : Client :=
  {| tcp_client := tcp_client c; identifier := identifier c; disconnected := true |}.

(** The data callback, acting on the [recv_buf] it captured by reference.
    [data] is [None] for [nullptr] and otherwise the memory readable at the
    pointer; [recv_buf.insert(recv_buf.end(), buf, buf + len)] reads its
    first [len] bytes. Reading more than there is has no defined result:
    [None]. *)
Definition on_data (data : option (list byte)) (len : nat) (recv_buf : list byte)
  : option (list byte) :=
  if decide (len = 0) then Some recv_buf
  else match data with
       | None => Some recv_buf
       | Some mem =>
           if decide (len ≤ length mem) then Some (recv_buf ++ take len mem)
           else None
       end.

(** ** [StreamServerComponent] *)

(** The members the methods touch, the statics of [readline], and the trace
    of effects on the collaborators. *)
Record State := {
  stream_ : Stream.t;
  clients_ : list Client;
  recv_buf_ : list byte;
  framer : Framer.t;
  trace : list Effect;
}.

Definition emit (es : list Effect) (s : State) : State :=
  {| stream_ := stream_ s; clients_ := clients_ s; recv_buf_ := recv_buf_ s;
     framer := framer s; trace := trace s ++ es |}.

Definition set_clients (cs : list Client) (s : State) : State :=
  {| stream_ := stream_ s; clients_ := cs; recv_buf_ := recv_buf_ s;
     framer := framer s; trace := trace s |}.

Definition set_recv_buf (b : list byte) (s : State) : State :=
  {| stream_ := stream_ s; clients_ := clients_ s; recv_buf_ := b;
     framer := framer s; trace := trace s |}.

Definition set_stream (st : Stream.t) (s : State) : State :=
  {| stream_ := st; clients_ := clients_ s; recv_buf_ := recv_buf_ s;
     framer := framer s; trace := trace s |}.

Definition set_framer (fr : Framer.t) (s : State) : State :=
  {| stream_ := stream_ s; clients_ := clients_ s; recv_buf_ := recv_buf_ s;
     framer := fr; trace := trace s |}.

(** [setup()]: nothing is connected and nothing is buffered. *)
Definition setup (uart : Stream.t) : State :=
  {| stream_ := uart; clients_ := []; recv_buf_ := []; framer := Framer.init;
     trace := [Log "Setting up stream server..."] |}.

(** The callback [setup()] gives to [server_.onClient]; [None] is
    [tcpClient == nullptr]. *)
Definition on_client (tcpClient : option AsyncClient) (s : State) : State :=
  match tcpClient with
  | None => s
  | Some client =>
      let '(c, log) := new_Client client in
      set_clients (clients_ s ++ [c]) (emit log s)
  end.

(** The discriminator of [cleanup()]. *)
Definition discriminator (client : Client) : bool := negb (disconnected client).

(** [cleanup()]: partition, log the tail, erase the tail. Erasing destroys
    the [Client]s of the tail, and [~Client] deletes the connection. *)
Definition cleanup (s : State) : option State :=
  '(v, last_client) ← StdAlgo.partition discriminator (clients_ s);
  let tail := drop last_client v in
  let logs := (λ c, Log ("Client " +:+ identifier c +:+ " disconnected")) <$> tail in
  let deletes := (λ c, TcpDelete (handle (tcp_client c))) <$> tail in
  Some (set_clients (take last_client v) (emit (logs ++ deletes) s)).

(** One turn of the loop of [read()] for the chunk [buf]: frame, publish,
    fan out. *)
Definition read_chunk (buf : list byte) (s : State) : State :=
  let '(line, fr) := Framer.readline buf (framer s) in
  let published := match line with
                   | Some l => [PublishState l]
                   | None => []
                   end in
  let written := (λ c, TcpWrite (handle (tcp_client c)) buf) <$> clients_ s in
  emit (published ++ written) (set_framer fr s).

(** [read()]. The [while] loop runs as long as the stream reports bytes;
    [None] means the fuel ran out. *)
Fixpoint read (fuel : nat) (s : State) : option State :=
  match fuel with
  | 0 => None
  | S fuel =>
      let '(len, st) := Stream.available (stream_ s) in
      if decide (0 < len) then
        let len := len `min` BUF_SIZE in
        let '(buf, st) := Stream.read_array len st in
        read fuel (read_chunk buf (emit [UartRead buf] (set_stream st s)))
      else Some (set_stream st s)
  end.

(** Fuel that lets [read] finish: every turn but the last takes at least
    one byte off the backlog. *)
Definition read_fuel (s : State) : nat := S (Stream.backlog (stream_ s)).

(** The loop of the older branch of [write()]:
    [while ((len = recv_buf_.size()) > 0) { write(data, len); erase(begin, begin + len); }] *)
Fixpoint write_loop (fuel : nat) (s : State) : option State :=
  match fuel with
  | 0 => None
  | S fuel =>
      let len := length (recv_buf_ s) in
      if decide (0 < len) then
        write_loop fuel
          (set_recv_buf (drop len (recv_buf_ s))
             (emit [UartWrite (take len (recv_buf_ s))] s))
      else Some s
  end.

(** [write()]. [uart_api] says which branch of
    [#if ESPHOME_VERSION_CODE >= VERSION_CODE(2021, 10, 0)] was compiled:
    [true] for [write_array] followed by [clear()]. *)
Definition write (uart_api : bool) (s : State) : option State :=
  if uart_api then Some (set_recv_buf [] (emit [UartWrite (recv_buf_ s)] s))
  else write_loop 2 s.

(** [loop()]. *)
Definition loop (uart_api : bool) (s : State) : option State :=
  s1 ← cleanup s;
  s2 ← read (read_fuel s1) s1;
  write uart_api s2.

(** ** The component in its environment

    The scheduler and the network layer drive the component through these
    events. A connection callback is named by the connection it was
    registered on and acts on the [Client] that owns that connection. *)
Inductive Event :=
  | EvClient (tcpClient : option AsyncClient)
  | EvError (h : nat)
  | EvDisconnect (h : nat)
  | EvTimeout (h : nat)
  | EvData (h : nat) (data : option (list byte)) (len : nat)
  | EvLoop
  | EvShutdown (discards : nat → bool).

Definition owns (h : nat) (c : Client) : Prop := handle (tcp_client c) = h.

#[global] Instance owns_decision h c : Decision (owns h c).
Proof. unfold owns. apply _. Defined.

Definition fire (h : nat) (callback : Client → Client) (s : State) : State :=
  set_clients ((λ c, if decide (owns h c) then callback c else c) <$> clients_ s) s.

(** [tcp_client->close(true)] on the connection [h]. The connection object
    belongs to the TCP library, and what its [close] does besides closing is
    the library's business. The constructor registered an on-disconnect
    handler on this connection, and a library may run it before [close]
    returns: the upstream ESPAsyncTCP and AsyncTCP do so for a connection
    that is still open. [discards h] says whether the library does for
    [h]; the handler then acts on the client that owns [h], as for
    [EvDisconnect]. *)
Definition close_now (discards : nat → bool) (h : nat) (s : State) : State :=
  let s1 := emit [TcpClose h true] s in
  if discards h then fire h on_disconnect s1 else s1.

(** [on_shutdown()]: [for (auto &client : clients_) client->tcp_client->close(true);].
    The handlers that run meanwhile set flags and leave the vector and the
    connections of its clients alone, so the loop visits the clients the
    registry had at the start. *)
Definition on_shutdown (discards : nat → bool) (s : State) : State :=
  foldl (λ s c, close_now discards (handle (tcp_client c)) s) s (clients_ s).

Definition step (uart_api : bool) (e : Event) (s : State) : option State :=
  match e with
  | EvClient tcpClient => Some (on_client tcpClient s)
  | EvError h => Some (fire h on_error s)
  | EvDisconnect h => Some (fire h on_disconnect s)
  | EvTimeout h => Some (fire h on_timeout s)
  | EvData h data len =>
      if decide (Exists (owns h) (clients_ s)) then
        b ← on_data data len (recv_buf_ s); Some (set_recv_buf b s)
      else Some s
  | EvLoop => loop uart_api s
  | EvShutdown discards => Some (on_shutdown discards s)
  end.

(** The connections of the registry, by handle. *)
Definition handles (cs : list Client) : list nat :=
  (λ c, handle (tcp_client c)) <$> cs.

(** The bytes handed to the stream, in order. *)
Definition uart_written (tr : list Effect) : list byte :=
  concat (omap (λ e, match e with UartWrite d => Some d | _ => None end) tr).

(** The chunks taken from the stream, in order. *)
Definition uart_chunks (tr : list Effect) : list (list byte) :=
  omap (λ e, match e with UartRead d => Some d | _ => None end) tr.

(** The lines handed to the sensor, in order. *)
Definition published (tr : list Effect) : list (list byte) :=
  omap (λ e, match e with PublishState l => Some l | _ => None end) tr.

(** The writes to TCP connections, in order. *)
Definition tcp_writes (tr : list Effect) : list (nat * list byte) :=
  omap (λ e, match e with TcpWrite h d => Some (h, d) | _ => None end) tr.

(** ** Vocabulary of the properties *)

(** The fan-out of one chunk. *)
Definition fan_out (cs : list Client) (buf : list byte) : list (nat * list byte) :=
  (λ c, (handle (tcp_client c), buf)) <$> cs.

(** The effects of one turn of the read loop after the read itself. *)
Definition turn_effects (cs : list Client) (line : option (list byte)) (buf : list byte) : list Effect :=
  match line with
  | Some l => [PublishState l]
  | None => []
  end ++ ((λ c, TcpWrite (handle (tcp_client c)) buf) <$> cs).

(** The effects of [cleanup()] for the clients it erases. *)
Definition cleanup_effects (dead : list Client) : list Effect :=
  ((λ c, Log ("Client " +:+ identifier c +:+ " disconnected")) <$> dead)
  ++ ((λ c, TcpDelete (handle (tcp_client c))) <$> dead).

(** How a client of the registry after a step relates to one before it:
    same connection, same identifier, and a flag that is still set if it
    was set. *)
Definition evolves (c0 c' : Client) : Prop :=
  tcp_client c' = tcp_client c0 ∧ identifier c' = identifier c0
  ∧ (disconnected c0 = true → disconnected c' = true).

(** What the environment guarantees when it delivers an event: live
    connection objects have distinct addresses, and a newly accepted
    connection is a new object. *)
Definition env_ok (e : Event) (s : State) : Prop :=
  NoDup (handles (clients_ s))
  ∧ match e with
    | EvClient (Some client) => handle client ∉ handles (clients_ s)
    | _ => True
    end.

#[global] Instance env_ok_decision e s : Decision (env_ok e s).
Proof. unfold env_ok. destruct e as [[?|]| | | | | |?]; apply _. Defined.

(** ** Example data *)

Module Examples.

(** "a\0b\r" *)
Definition nul_input : list byte := [x61; x00; x62; x0d].

(** "ab\ncd\r" *)
Definition plain_input : list byte := [x61; x62; x0a; x63; x64; x0d].

Definition peer (h : nat) (ip : string) (gone : bool) : Client :=
  {| tcp_client := {| handle := h; remoteIP := ip |};
     identifier := ip; disconnected := gone |}.

Definition c1 : Client := peer 1 "10.0.0.1" true.
Definition c2 : Client := peer 2 "10.0.0.2" false.
Definition c3 : Client := peer 3 "10.0.0.3" false.

Definition idle_uart : Stream.t := {| Stream.rx := []; Stream.incoming := [] |}.

(** A dead client registered ahead of two live ones. *)
Definition registry_state : State :=
  set_clients [c1; c2; c3] (setup idle_uart).

(** Two live clients, their connections open. *)
Definition open_registry_state : State :=
  set_clients [c2; c3] (setup idle_uart).

(** "a\rb\r" waiting in the UART, to be read as one chunk. *)
Definition two_lines_state : State :=
  setup {| Stream.rx := [x61; x0d; x62; x0d]; Stream.incoming := [] |}.

End Examples.

(** ** Vocabulary of the further properties *)

(** [readline] called once per chunk, as [read()] does: the value returned
    for each chunk and the state of the framer after the last one. *)
Fixpoint feed_chunks (chunks : list (list byte)) (st : Framer.t)
  : list (option (list byte)) * Framer.t :=
  match chunks with
  | [] => ([], st)
  | chunk :: rest =>
      let '(r, st1) := Framer.readline chunk st in
      let '(rs, st2) := feed_chunks rest st1 in
      (r :: rs, st2)
  end.

(** A chunk that ends with its line: no carriage return at all, or a single
    one followed by nothing but line feeds. *)
Definition line_aligned (chunk : list byte) : Prop :=
  CR ∉ chunk
  ∨ ∃ pre lfs, chunk = pre ++ CR :: lfs ∧ (CR ∉ pre) ∧ Forall (λ c, c = LF) lfs.

(** The framer is well formed and holds no line terminator among the bytes
    pending. *)
Definition tidy (st : Framer.t) : Prop :=
  Framer.wf st ∧ (CR ∉ Framer.pending st) ∧ (LF ∉ Framer.pending st).

(** A line as a consumer of the sensor can rely on it. *)
Definition good_line (l : list byte) : Prop :=
  length l ≤ LINE_SIZE - 1 ∧ (CR ∉ l) ∧ (LF ∉ l) ∧ (NUL ∉ l).

(** The connections deleted, in order. *)
Definition tcp_deletes (tr : list Effect) : list nat :=
  omap (λ e, match e with TcpDelete h => Some h | _ => None end) tr.

(** The bytes written to the connection [h], in order. *)
Definition tcp_sent_to (h : nat) (tr : list Effect) : list byte :=
  concat (omap (λ e, match e with
                     | TcpWrite h' d => if decide (h' = h) then Some d else None
                     | _ => None
                     end) tr).

(** The connection-accepted callback invoked for each of [conns] in turn. *)
Definition accept_all (conns : list (option AsyncClient)) (s : State) : State :=
  foldl (λ s tcpClient, on_client tcpClient s) s conns.

(** The bytes a data callback contributes. *)
Definition payload (data : option (list byte)) (len : nat) : list byte :=
  if decide (len = 0) then []
  else match data with
       | None => []
       | Some mem => take len mem
       end.

(** The events of [es] delivered in order. *)
Definition run (uart_api : bool) (es : list Event) (s : State) : option State :=
  foldl (λ o e, o ≫= step uart_api e) (Some s) es.

(** The part of the trace [s'] has beyond that of [s]. *)
Definition since (s s' : State) : list Effect :=
  drop (length (trace s)) (trace s').

(** * Properties *)

(** ** Line framer *)

Module FramerFacts.
Import Framer LineSpec.

Lemma c_str_terminated (l r : list byte) : c_str (l ++ NUL :: r) = c_str l.
Proof.
  induction l as [|c l IH]; simpl.
  - done.
  - destruct (decide (c = NUL)); [done | by rewrite IH].
Qed.

Lemma c_str_no_nul (l : list byte) : NUL ∉ l → c_str l = l.
Proof.
  induction l as [|c l IH]; simpl; intros Hnul; [done |].
  rewrite not_elem_of_cons in Hnul. destruct Hnul as [Hc Hl].
  rewrite decide_False by done. by rewrite IH.
Qed.

(** Writing the terminator at the cursor makes the string at [line] the
    pending bytes up to their first zero byte. *)
Lemma c_str_terminate (st : t) :
  wf st → c_str (<[pos st := NUL]> (line st)) = c_str (pending st).
Proof.
  intros [Hlen Hpos]. unfold pending.
  rewrite insert_take_drop by lia. apply c_str_terminated.
Qed.

Lemma pending_length (st : t) : wf st → length (pending st) = pos st.
Proof. intros [Hlen Hpos]. unfold pending. rewrite length_take. lia. Qed.

Lemma pending_store (st : t) (c : byte) :
  wf st →
  pending {| line := <[pos st := c]> (line st); pos := S (pos st) |}
  = pending st ++ [c].
Proof.
  intros [Hlen Hpos]. unfold pending; simpl.
  assert (Hl : length (take (pos st) (line st)) = pos st)
    by (rewrite length_take; lia).
  rewrite insert_take_drop by lia.
  rewrite (take_S_r _ _ c).
  - by rewrite take_app_length'.
  - rewrite lookup_app_r by lia. by rewrite Hl, Nat.sub_diag.
Qed.

Lemma wf_init : wf init.
Proof. split; simpl; [done | unfold LINE_SIZE; lia]. Qed.

Lemma wf_terminate (st : t) :
  wf st → wf {| line := <[pos st := NUL]> (line st); pos := 0 |}.
Proof.
  intros [Hlen Hpos]. split; simpl; [by rewrite length_insert | unfold LINE_SIZE; lia].
Qed.

Lemma wf_store (st : t) (c : byte) :
  wf st → pos st < LINE_SIZE - 1 →
  wf {| line := <[pos st := c]> (line st); pos := S (pos st) |}.
Proof.
  intros [Hlen Hpos] Hroom. split; simpl; [by rewrite length_insert | lia].
Qed.

(** One call with one byte, case by case. *)
Lemma readline_byte (c : byte) (st : t) :
  readline [c] st =
    if decide (c = LF) then (None, st)
    else if decide (c = CR) then
      (Some (c_str (<[pos st := NUL]> (line st))),
       {| line := <[pos st := NUL]> (line st); pos := 0 |})
    else if decide (pos st < LINE_SIZE - 1) then
      (None, {| line := <[pos st := c]> (line st); pos := S (pos st) |})
    else (None, st).
Proof. simpl. repeat case_decide; done. Qed.

Lemma returned_lines_cons (c : byte) (rest : list byte) (st : t) :
  returned_lines (c :: rest) st =
    match readline [c] st with
    | (Some l, st') => l :: returned_lines rest st'
    | (None, st') => returned_lines rest st'
    end.
Proof.
  unfold returned_lines. cbn [feed_calls].
  destruct (readline [c] st) as [[l|] st']; done.
Qed.

Lemma strip_lf_cons_lf (seg : list byte) : strip_lf (LF :: seg) = strip_lf seg.
Proof. unfold strip_lf. by rewrite filter_cons_False by (intros H; by apply H). Qed.

Lemma strip_lf_cons (c : byte) (seg : list byte) :
  c ≠ LF → strip_lf (c :: seg) = c :: strip_lf seg.
Proof. intros H. unfold strip_lf. by rewrite filter_cons_True. Qed.

(** The completed segments when the input starts with a segment free of
    carriage returns. *)
Lemma cr_segments_app (seg rest : list byte) :
  CR ∉ seg → cr_segments (seg ++ CR :: rest) = seg :: cr_segments rest.
Proof.
  induction seg as [|c seg IH]; simpl; intros Hcr.
  - done.
  - rewrite not_elem_of_cons in Hcr. destruct Hcr as [Hc Hseg].
    rewrite decide_False by done. by rewrite IH.
Qed.

Lemma cr_segments_no_cr (seg : list byte) : CR ∉ seg → cr_segments seg = [].
Proof.
  induction seg as [|c seg IH]; simpl; intros Hcr; [done |].
  rewrite not_elem_of_cons in Hcr. destruct Hcr as [Hc Hseg].
  rewrite decide_False by done. by rewrite IH.
Qed.

(** The lines returned from a state with bytes pending: the pending bytes
    open the first line. *)
Lemma returned_lines_pending (input : list byte) (st : t) :
  wf st →
  returned_lines input st =
    match cr_segments input with
    | [] => []
    | seg :: segs =>
        c_str (take (LINE_SIZE - 1) (pending st ++ strip_lf seg))
          :: ((c_str ∘ spec_line) <$> segs)
    end.
Proof.
  revert st. induction input as [|c rest IH]; intros st Hwf; [done |].
  rewrite returned_lines_cons, readline_byte. cbn [cr_segments].
  destruct (decide (c = LF)) as [->|Hlf].
  { rewrite decide_False by done. rewrite IH by done.
    destruct (cr_segments rest); [done |]. by rewrite strip_lf_cons_lf. }
  destruct (decide (c = CR)) as [->|Hcr].
  { rewrite c_str_terminate by done. rewrite IH by by apply wf_terminate.
    change (strip_lf []) with (@nil byte). rewrite app_nil_r.
    rewrite take_ge by (rewrite pending_length by done; destruct Hwf; lia).
    f_equal. destruct (cr_segments rest) as [|seg segs]; [done |].
    by rewrite fmap_cons. }
  destruct (decide (pos st < LINE_SIZE - 1)) as [Hroom|Hfull].
  - rewrite IH by by apply wf_store.
    destruct (cr_segments rest) as [|seg segs]; [done |].
    rewrite pending_store by done. rewrite strip_lf_cons by done.
    by rewrite <- app_assoc.
  - rewrite IH by done.
    destruct (cr_segments rest) as [|seg segs]; [done |].
    rewrite strip_lf_cons by done.
    assert (Hl : length (pending st) = LINE_SIZE - 1)
      by (rewrite pending_length by done; destruct Hwf; lia).
    by rewrite !take_app_length' by done.
Qed.

(** A call returns a line exactly when its byte is a carriage return. *)
Lemma feed_calls_some (input : list byte) (st : t) :
  (λ r, bool_decide (is_Some r)) <$> feed_calls input st
  = (λ c, bool_decide (c = CR)) <$> input.
Proof.
  revert st. induction input as [|c rest IH]; intros st; [done |].
  cbn [feed_calls]. rewrite readline_byte.
  repeat case_decide; subst; rewrite !fmap_cons, IH; f_equal;
    try (by rewrite bool_decide_eq_false_2 by (by intros [??]);
         rewrite bool_decide_eq_false_2 by done);
    try (by rewrite bool_decide_eq_true_2 by eauto).
Qed.

End FramerFacts.

(** ** [std::partition] *)

Module StdAlgoFacts.
Import StdAlgo.

Section partition.
Context {A : Type} (pred : A → bool).
Implicit Types (v : list A) (first last fuel : nat).

Lemma range_is_join b v lo mid hi :
  range_is pred b v lo mid → range_is pred b v mid hi → range_is pred b v lo hi.
Proof.
  intros H1 H2 j y Hj Hy. destruct (decide (j < mid)).
  - apply (H1 j); [lia | done].
  - apply (H2 j); [lia | done].
Qed.

Lemma range_is_one b v i x :
  v !! i = Some x → pred x = b → range_is pred b v i (S i).
Proof. intros Hx Hb j y Hj Hy. assert (j = i) as -> by lia. congruence. Qed.

Lemma iter_swap_eq v i j x y :
  v !! i = Some x → v !! j = Some y →
  iter_swap v i j = <[j := x]> (<[i := y]> v).
Proof. intros Hx Hy. unfold iter_swap. by rewrite Hx, Hy. Qed.

Lemma iter_swap_perm v i j : iter_swap v i j ≡ₚ v.
Proof.
  unfold iter_swap. destruct (v !! i) as [x|] eqn:Hx; [|done].
  destruct (v !! j) as [y|] eqn:Hy; [|done].
  by apply Permutation_insert_swap.
Qed.

Lemma iter_swap_length v i j : length (iter_swap v i j) = length v.
Proof. apply Permutation_length, iter_swap_perm. Qed.

Lemma iter_swap_lookup v i j x y k :
  v !! i = Some x → v !! j = Some y → i ≠ j →
  iter_swap v i j !! k =
    if decide (k = i) then Some y else if decide (k = j) then Some x else v !! k.
Proof.
  intros Hx Hy Hij. rewrite (iter_swap_eq _ _ _ x y) by done.
  pose proof (lookup_lt_Some _ _ _ Hx). pose proof (lookup_lt_Some _ _ _ Hy).
  destruct (decide (k = i)) as [->|Hki].
  - rewrite list_lookup_insert_ne by done.
    by rewrite list_lookup_insert_eq by done.
  - destruct (decide (k = j)) as [->|Hkj].
    + by rewrite list_lookup_insert_eq by (by rewrite length_insert).
    + by rewrite !list_lookup_insert_ne by done.
Qed.

(** The first inner loop either reaches [last] over elements that all
    satisfy the predicate, or stops at the first one that does not. *)
Lemma scan_up_spec fuel v first last :
  first ≤ last ≤ length v → last - first < fuel →
  (scan_up pred fuel v first last = Some (Return last)
     ∧ range_is pred true v first last)
  ∨ (∃ i x, scan_up pred fuel v first last = Some (Break i)
     ∧ first ≤ i < last ∧ v !! i = Some x ∧ pred x = false
     ∧ range_is pred true v first i).
Proof.
  revert first. induction fuel as [|fuel IH]; intros first Hrange Hfuel; [lia |].
  simpl. destruct (decide (first = last)) as [->|Hne].
  { left. split; [done |]. intros j y Hj. lia. }
  destruct (lookup_lt_is_Some_2 v first) as [x Hx]; [lia |].
  rewrite Hx. destruct (pred x) eqn:Hp.
  - destruct (IH (S first)) as [[Hr Hall]|(i & z & Hr & Hi & Hz & Hpz & Hall)];
      [lia | lia | left | right].
    + split; [done |].
      apply (range_is_join _ _ _ (S first)); [by eapply range_is_one | done].
    + exists i, z. repeat split; [done | lia | lia | done | done |].
      apply (range_is_join _ _ _ (S first)); [by eapply range_is_one | done].
  - right. exists first, x. repeat split; [lia | lia | done | done |].
    intros j y Hj. lia.
Qed.

(** The second inner loop, started on the decremented [last], either comes
    down to [first] over elements that all fail the predicate, or stops
    at the last one that satisfies it. *)
Lemma scan_down_spec fuel v first last :
  first ≤ last < length v → last - first < fuel →
  (scan_down pred fuel v first last = Some (Return first)
     ∧ range_is pred false v (S first) (S last))
  ∨ (∃ j y, scan_down pred fuel v first last = Some (Break j)
     ∧ first < j ≤ last ∧ v !! j = Some y ∧ pred y = true
     ∧ range_is pred false v (S j) (S last)).
Proof.
  revert last. induction fuel as [|fuel IH]; intros last Hrange Hfuel; [lia |].
  simpl. destruct (decide (first = last)) as [->|Hne].
  { left. split; [done |]. intros j y Hj. lia. }
  destruct (lookup_lt_is_Some_2 v last) as [x Hx]; [lia |].
  rewrite Hx. destruct (pred x) eqn:Hp; simpl.
  - right. exists last, x. repeat split; [lia | lia | done | done |].
    intros j y Hj. lia.
  - assert (Hl : S (Nat.pred last) = last) by lia.
    destruct (IH (Nat.pred last)) as [[Hr Hall]|(j & z & Hr & Hj & Hz & Hpz & Hall)];
      [lia | lia | left | right]; rewrite Hl in Hall.
    + split; [done |].
      apply (range_is_join _ _ _ last); [done | by eapply range_is_one].
    + exists j, z. repeat split; [done | lia | lia | done | done |].
      apply (range_is_join _ _ _ last); [done | by eapply range_is_one].
Qed.

(** The outer loop, from a state in which everything before [first]
    satisfies the predicate and everything from [last] on fails it. *)
Lemma partition_loop_spec fuel v first last :
  first ≤ last ≤ length v → last - first < fuel →
  range_is pred true v 0 first → range_is pred false v last (length v) →
  ∃ v' i, partition_loop pred fuel v first last = Some (v', i)
    ∧ v' ≡ₚ v ∧ i ≤ length v'
    ∧ range_is pred true v' 0 i ∧ range_is pred false v' i (length v').
Proof.
  revert v first last.
  induction fuel as [|fuel IH]; intros v first last Hrange Hfuel Hlo Hhi; [lia |].
  cbn [partition_loop].
  destruct (scan_up_spec (S fuel) v first last)
    as [[-> Hup]|(i & x & -> & Hi & Hx & Hpx & Hup)]; [done | done | |].
  { exists v, last. repeat split; [done | lia | | done].
    by apply (range_is_join _ _ _ first). }
  assert (Hl : S (Nat.pred last) = last) by lia.
  destruct (scan_down_spec (S fuel) v i (Nat.pred last))
    as [[-> Hdown]|(j & y & -> & Hj & Hy & Hpy & Hdown)]; [lia | lia | |];
    rewrite Hl in Hdown.
  { exists v, i. repeat split; [done | lia | |].
    - apply (range_is_join _ _ _ first); [done | done].
    - apply (range_is_join _ _ _ (S i)); [by eapply range_is_one |].
      by apply (range_is_join _ _ _ last). }
  pose proof (iter_swap_lookup v i j x y) as Hswap.
  destruct (IH (iter_swap v i j) (S i) j) as (v' & k & Hr & Hperm & Hk & Hlo' & Hhi').
  - rewrite iter_swap_length. lia.
  - lia.
  - intros m z Hm. rewrite Hswap by (done || lia).
    destruct (decide (m = i)) as [->|Hmi]; [congruence |].
    rewrite decide_False by lia. intros Hz.
    destruct (decide (m < first)).
    + apply (Hlo m); [lia | done].
    + apply (Hup m); [lia | done].
  - rewrite iter_swap_length. intros m z Hm. rewrite Hswap by (done || lia).
    rewrite decide_False by lia.
    destruct (decide (m = j)) as [->|Hmj]; [congruence |]. intros Hz.
    destruct (decide (m < last)).
    + apply (Hdown m); [lia | done].
    + apply (Hhi m); [lia | done].
  - exists v', k. repeat split; [done | | done | done | done].
    rewrite Hperm. apply iter_swap_perm.
Qed.

(** [std::partition] returns, and what it returns is a rearrangement of
    the vector with the elements that satisfy the predicate in front of
    the returned iterator and the others behind it. *)
Lemma partition_total v :
  ∃ v' i, partition pred v = Some (v', i)
    ∧ v' ≡ₚ v ∧ i ≤ length v'
    ∧ Forall (λ x, pred x = true) (take i v')
    ∧ Forall (λ x, pred x = false) (drop i v').
Proof.
  destruct (partition_loop_spec (S (length v)) v 0 (length v))
    as (v' & i & Hr & Hperm & Hi & Hlo & Hhi).
  - lia.
  - lia.
  - intros j y Hj. lia.
  - intros j y Hj. lia.
  - exists v', i. repeat split; [done | done | done | |].
    + apply Forall_lookup_2. intros j y Hy.
      apply lookup_take_Some in Hy as [Hy Hj]. apply (Hlo j); [lia | done].
    + apply Forall_lookup_2. intros j y Hy. rewrite lookup_drop in Hy.
      pose proof (lookup_lt_Some _ _ _ Hy). apply (Hhi (i + j)); [lia | done].
Qed.

Lemma filter_all (P : A → Prop) `{!∀ x, Decision (P x)} (l : list A) :
  Forall P l → filter P l = l.
Proof.
  induction 1 as [|x l Hx _ IH]; [done |].
  by rewrite filter_cons_True, IH.
Qed.

Lemma filter_none (P : A → Prop) `{!∀ x, Decision (P x)} (l : list A) :
  Forall (λ x, ¬ P x) l → filter P l = [].
Proof.
  induction 1 as [|x l Hx _ IH]; [done |].
  by rewrite filter_cons_False.
Qed.

(** The front part is the elements that satisfy the predicate, each as
    often as the vector had it; the back part is the others. *)
Lemma partition_front v v' i :
  partition pred v = Some (v', i) →
  take i v' ≡ₚ filter (λ x, pred x = true) v
  ∧ drop i v' ≡ₚ filter (λ x, pred x = false) v.
Proof.
  intros Hr. destruct (partition_total v) as (w & k & Hr' & Hperm & Hk & Hfront & Hback).
  rewrite Hr in Hr'. injection Hr' as <- <-.
  split; rewrite <- Hperm; rewrite <- (take_drop i v') at 2; rewrite filter_app.
  - rewrite filter_all by done. rewrite filter_none; [by rewrite app_nil_r |].
    eapply Forall_impl; [apply Hback |]. simpl. intros x Hx. congruence.
  - rewrite (filter_all _ (drop i v')) by done. rewrite filter_none; [done |].
    eapply Forall_impl; [apply Hfront |]. simpl. intros x Hx. congruence.
Qed.

End partition.

End StdAlgoFacts.

(** ** Reading the trace *)

Section trace.
Implicit Types (tr : list Effect) (cs : list Client).

Lemma tcp_writes_app tr1 tr2 :
  tcp_writes (tr1 ++ tr2) = tcp_writes tr1 ++ tcp_writes tr2.
Proof. apply omap_app. Qed.

Lemma uart_chunks_app tr1 tr2 :
  uart_chunks (tr1 ++ tr2) = uart_chunks tr1 ++ uart_chunks tr2.
Proof. apply omap_app. Qed.

Lemma published_app tr1 tr2 :
  published (tr1 ++ tr2) = published tr1 ++ published tr2.
Proof. apply omap_app. Qed.

Lemma uart_written_app tr1 tr2 :
  uart_written (tr1 ++ tr2) = uart_written tr1 ++ uart_written tr2.
Proof. unfold uart_written. by rewrite omap_app, concat_app. Qed.

(** A stretch of the trace made of one kind of effect only. *)
Lemma omap_fmap_none {B C} (f : Effect → option B) (g : C → Effect) (l : list C) :
  (∀ x, f (g x) = None) → omap f (g <$> l) = [].
Proof.
  intros Hf. induction l as [|x l IH]; [done |].
  rewrite fmap_cons. simpl. by rewrite Hf.
Qed.

Lemma omap_fmap_some {B C} (f : Effect → option B) (g : C → Effect)
    (h : C → B) (l : list C) :
  (∀ x, f (g x) = Some (h x)) → omap f (g <$> l) = h <$> l.
Proof.
  intros Hf. induction l as [|x l IH]; [done |].
  rewrite !fmap_cons. simpl. rewrite Hf. simpl. f_equal. apply IH.
Qed.

Lemma tcp_writes_fan_out cs buf :
  tcp_writes ((λ c, TcpWrite (handle (tcp_client c)) buf) <$> cs) = fan_out cs buf.
Proof. by apply omap_fmap_some. Qed.

Lemma turn_effects_tcp_writes cs line buf :
  tcp_writes (turn_effects cs line buf) = fan_out cs buf.
Proof.
  unfold turn_effects. rewrite tcp_writes_app, tcp_writes_fan_out.
  by destruct line.
Qed.

Lemma turn_effects_uart_chunks cs line buf :
  uart_chunks (turn_effects cs line buf) = [].
Proof.
  unfold turn_effects. rewrite uart_chunks_app.
  unfold uart_chunks at 2. rewrite omap_fmap_none by done.
  by destruct line.
Qed.

Lemma turn_effects_uart_written cs line buf :
  uart_written (turn_effects cs line buf) = [].
Proof.
  unfold turn_effects. rewrite uart_written_app.
  unfold uart_written at 2. rewrite omap_fmap_none by done.
  by destruct line.
Qed.

Lemma turn_effects_published cs line buf :
  published (turn_effects cs line buf) = option_list line.
Proof.
  unfold turn_effects. rewrite published_app.
  unfold published at 2. rewrite omap_fmap_none by done.
  destruct line; by rewrite app_nil_r.
Qed.

Lemma cleanup_effects_silent (dead : list Client) :
  tcp_writes (cleanup_effects dead) = []
  ∧ uart_chunks (cleanup_effects dead) = []
  ∧ uart_written (cleanup_effects dead) = []
  ∧ published (cleanup_effects dead) = [].
Proof.
  unfold cleanup_effects.
  rewrite tcp_writes_app, uart_chunks_app, uart_written_app, published_app.
  unfold tcp_writes, uart_chunks, uart_written, published.
  by rewrite !omap_fmap_none by done.
Qed.

Lemma elem_of_fan_out cs buf h d :
  (h, d) ∈ fan_out cs buf ↔ d = buf ∧ h ∈ handles cs.
Proof.
  unfold fan_out, handles. rewrite !list_elem_of_fmap. split.
  - intros (c & [= -> ->] & Hc). eauto.
  - intros [-> (c & -> & Hc)]. eauto.
Qed.

End trace.

(** ** The phases of the loop *)

Section phases.
Implicit Types (s : State) (c : Client).

Lemma live_filter (cs : list Client) :
  filter (λ c, discriminator c = true) cs = filter (λ c, disconnected c = false) cs.
Proof.
  apply list_filter_iff. intros c. unfold discriminator.
  destruct (disconnected c); simpl; split; congruence.
Qed.

Lemma dead_filter (cs : list Client) :
  filter (λ c, discriminator c = false) cs = filter (λ c, disconnected c = true) cs.
Proof.
  apply list_filter_iff. intros c. unfold discriminator.
  destruct (disconnected c); simpl; split; congruence.
Qed.

(** [cleanup()] returns; it keeps the live clients, logs and destroys the
    dead ones, and touches nothing else. *)
Lemma cleanup_spec s :
  ∃ s' dead, cleanup s = Some s'
    ∧ clients_ s' ≡ₚ filter (λ c, disconnected c = false) (clients_ s)
    ∧ dead ≡ₚ filter (λ c, disconnected c = true) (clients_ s)
    ∧ trace s' = trace s ++ cleanup_effects dead
    ∧ stream_ s' = stream_ s ∧ recv_buf_ s' = recv_buf_ s ∧ framer s' = framer s.
Proof.
  destruct (StdAlgoFacts.partition_total discriminator (clients_ s))
    as (v & i & Hr & _).
  destruct (StdAlgoFacts.partition_front _ _ _ _ Hr) as [Hfront Hback].
  rewrite live_filter in Hfront. rewrite dead_filter in Hback.
  unfold cleanup. rewrite Hr. simpl.
  eexists _, (drop i v). repeat split; done.
Qed.

Lemma available_spec (st : Stream.t) :
  (Stream.available st).1 = length (Stream.rx (Stream.available st).2)
  ∧ Stream.backlog (Stream.available st).2 = Stream.backlog st.
Proof.
  unfold Stream.available, Stream.backlog.
  destruct (Stream.incoming st) as [|batch later] eqn:Hin; simpl.
  - by rewrite Hin.
  - rewrite !length_app. lia.
Qed.

Lemma read_array_backlog (len : nat) (st : Stream.t) :
  len ≤ length (Stream.rx st) →
  Stream.backlog (Stream.read_array len st).2 + len = Stream.backlog st.
Proof.
  intros Hlen. unfold Stream.read_array, Stream.backlog. simpl.
  rewrite length_drop. lia.
Qed.

(** What one turn of the read loop adds to the trace, and that it leaves
    the registry and the receive buffer alone. *)
Lemma read_chunk_spec (buf : list byte) s :
  clients_ (read_chunk buf s) = clients_ s
  ∧ recv_buf_ (read_chunk buf s) = recv_buf_ s
  ∧ stream_ (read_chunk buf s) = stream_ s
  ∧ framer (read_chunk buf s) = (Framer.readline buf (framer s)).2
  ∧ trace (read_chunk buf s) = trace s
      ++ turn_effects (clients_ s) (Framer.readline buf (framer s)).1 buf.
Proof.
  unfold read_chunk, turn_effects.
  destruct (Framer.readline buf (framer s)) as [line fr]. done.
Qed.

(** One turn of the read loop publishes one line at most, however many
    carriage returns the chunk has. *)
Lemma read_chunk_publishes_at_most_one (buf : list byte) s :
  length (published (trace (read_chunk buf s))) ≤ S (length (published (trace s))).
Proof.
  destruct (read_chunk_spec buf s) as (_ & _ & _ & _ & Ht).
  rewrite Ht, published_app, turn_effects_published, length_app.
  destruct (Framer.readline buf (framer s)).1; simpl; lia.
Qed.

(** [read()] returns when given [read_fuel]; every chunk it took from the
    stream went to every client of the registry, and nothing was written
    to the stream. *)
Lemma read_spec (fuel : nat) s :
  Stream.backlog (stream_ s) < fuel →
  ∃ s' new, read fuel s = Some s'
    ∧ trace s' = trace s ++ new
    ∧ clients_ s' = clients_ s ∧ recv_buf_ s' = recv_buf_ s
    ∧ tcp_writes new = (chunk ← uart_chunks new; fan_out (clients_ s) chunk)
    ∧ uart_written new = [].
Proof.
  revert s. induction fuel as [|fuel IH]; intros s Hfuel; [lia |].
  cbn [read].
  destruct (available_spec (stream_ s)) as [Hlen Hback].
  destruct (Stream.available (stream_ s)) as [len st] eqn:Hav. simpl in Hlen, Hback.
  destruct (decide (0 < len)) as [Hpos|Hzero].
  - pose proof (read_array_backlog (len `min` BUF_SIZE) st) as Hrd.
    destruct (Stream.read_array (len `min` BUF_SIZE) st) as [buf st2] eqn:Hra.
    simpl in Hrd. specialize (Hrd ltac:(lia)).
    set (s1 := emit [UartRead buf] (set_stream st2 s)).
    destruct (read_chunk_spec buf s1) as (Hc & Hb & Hs & _ & Ht).
    destruct (IH (read_chunk buf s1)) as (s' & new & Hr & Htr & Hcs & Hrb & Hw & Hu).
    { rewrite Hs. simpl. unfold BUF_SIZE in *. lia. }
    exists s', ([UartRead buf]
                ++ turn_effects (clients_ s) (Framer.readline buf (framer s1)).1 buf
                ++ new).
    repeat split.
    + done.
    + rewrite Htr, Ht. simpl. by rewrite <- !app_assoc.
    + by rewrite Hcs, Hc.
    + by rewrite Hrb, Hb.
    + rewrite !tcp_writes_app, !uart_chunks_app. rewrite Hc in Hw. simpl in Hw.
      rewrite Hw, turn_effects_tcp_writes, turn_effects_uart_chunks.
      done.
    + by rewrite !uart_written_app, Hu, turn_effects_uart_written.
  - exists (set_stream st s), []. repeat split; simpl; by rewrite ?app_nil_r.
Qed.

(** [write()] returns; the receive buffer went to the stream as it was,
    and is empty afterwards. *)
Lemma write_spec (uart_api : bool) s :
  ∃ s' new, write uart_api s = Some s'
    ∧ trace s' = trace s ++ new
    ∧ uart_written new = recv_buf_ s ∧ recv_buf_ s' = []
    ∧ clients_ s' = clients_ s ∧ stream_ s' = stream_ s ∧ framer s' = framer s
    ∧ tcp_writes new = [] ∧ uart_chunks new = [].
Proof.
  destruct uart_api; simpl.
  - exists (set_recv_buf [] (emit [UartWrite (recv_buf_ s)] s)), [UartWrite (recv_buf_ s)].
    repeat split. unfold uart_written. simpl. by rewrite app_nil_r.
  - destruct (decide (0 < length (recv_buf_ s))) as [Hne|He]; simpl.
    + rewrite drop_all, decide_False by (simpl; lia). rewrite firstn_all.
      exists (set_recv_buf [] (emit [UartWrite (recv_buf_ s)] s)), [UartWrite (recv_buf_ s)].
      repeat split. unfold uart_written. simpl. by rewrite app_nil_r.
    + exists s, []. repeat split; simpl; try done; [by rewrite app_nil_r | |].
      * destruct (recv_buf_ s); [done | simpl in He; lia].
      * destruct (recv_buf_ s); [done | simpl in He; lia].
Qed.

End phases.

(** ** The loop and the events *)

Section system.
Implicit Types (s : State) (c : Client) (e : Event).

(** One tick: it returns; the registry keeps the live clients; the new
    part of the trace has each chunk fanned out to the registry as the
    cleanup left it; the receive buffer went to the stream. *)
Lemma loop_spec (uart_api : bool) s :
  ∃ s' new, loop uart_api s = Some s'
    ∧ trace s' = trace s ++ new
    ∧ clients_ s' ≡ₚ filter (λ c, disconnected c = false) (clients_ s)
    ∧ tcp_writes new = (chunk ← uart_chunks new; fan_out (clients_ s') chunk)
    ∧ uart_written new = recv_buf_ s
    ∧ recv_buf_ s' = [].
Proof.
  destruct (cleanup_spec s) as (s1 & dead & Hc & Hlive & _ & Ht1 & _ & Hb1 & _).
  destruct (read_spec (read_fuel s1) s1) as (s2 & new2 & Hr & Ht2 & Hc2 & Hb2 & Hw2 & Hu2).
  { unfold read_fuel. lia. }
  destruct (write_spec uart_api s2)
    as (s3 & new3 & Hw & Ht3 & Hu3 & Hb3 & Hc3 & _ & _ & Hw3 & Hk3).
  unfold loop. rewrite Hc. cbn [mbind option_bind]. rewrite Hr. cbn [mbind option_bind].
  destruct (cleanup_effects_silent dead) as (Hw1 & Hk1 & Hu1 & _).
  exists s3, (cleanup_effects dead ++ new2 ++ new3). repeat split.
  - done.
  - rewrite Ht3, Ht2, Ht1. by rewrite <- !app_assoc.
  - by rewrite Hc3, Hc2.
  - rewrite !tcp_writes_app, !uart_chunks_app, Hw1, Hk1, Hw2, Hw3, Hk3, Hc3, Hc2.
    simpl. by rewrite !app_nil_r.
  - rewrite !uart_written_app, Hu1, Hu2, Hu3, Hb2, Hb1. done.
  - done.
Qed.

(** What the loop of [on_shutdown()] has done after the clients [visited]:
    closed their connections in order, and set the flag of every client
    whose connection's close ran the handler. *)
Lemma close_all_spec (discards : nat → bool) (visited : list Client) s :
  let s' := foldl (λ s c, close_now discards (handle (tcp_client c)) s) s visited in
  clients_ s'
  = (λ c, if decide (handle (tcp_client c) ∈ handles visited)
          then (if discards (handle (tcp_client c)) then on_disconnect c else c)
          else c) <$> clients_ s
  ∧ trace s' = trace s ++ ((λ c, TcpClose (handle (tcp_client c)) true) <$> visited)
  ∧ recv_buf_ s' = recv_buf_ s ∧ stream_ s' = stream_ s ∧ framer s' = framer s.
Proof.
  revert s. induction visited as [|c0 visited IH]; intros s; simpl.
  { repeat split; [|by rewrite app_nil_r].
    rewrite <- (list_fmap_id (clients_ s)) at 1. apply list_fmap_ext.
    intros i c _. by simpl. }
  set (h0 := handle (tcp_client c0)).
  destruct (IH (close_now discards h0 s)) as (Hc & Ht & Hb & Hs & Hf).
  rewrite Hc, Ht, Hb, Hs, Hf. unfold close_now.
  destruct (discards h0) eqn:Hd; simpl; (split; [|by rewrite <- app_assoc]).
  - rewrite <- list_fmap_compose. apply list_fmap_ext. intros i c _. simpl.
    unfold owns. destruct (decide (handle (tcp_client c) = h0)) as [Heq|Hne]; simpl.
    + rewrite Heq, Hd. rewrite (decide_True (P := h0 ∈ h0 :: _)) by left.
      by destruct (decide (h0 ∈ handles visited)).
    + destruct (decide (handle (tcp_client c) ∈ handles visited)) as [Hin|Hnin].
      * by rewrite decide_True by by right.
      * rewrite decide_False; [done |]. by intros [?|?]%elem_of_cons.
  - apply list_fmap_ext. intros i c _. simpl.
    destruct (decide (handle (tcp_client c) = h0)) as [Heq|Hne].
    + rewrite Heq, Hd. rewrite (decide_True (P := h0 ∈ h0 :: _)) by left.
      by destruct (decide (h0 ∈ handles visited)).
    + destruct (decide (handle (tcp_client c) ∈ handles visited)) as [Hin|Hnin].
      * by rewrite decide_True by by right.
      * rewrite decide_False; [done |]. by intros [?|?]%elem_of_cons.
Qed.

(** [on_shutdown()] as a whole: every connection is closed, in registry
    order; a client keeps its connection and identifier, and its flag is
    set if the close of its connection ran the handler. *)
Lemma on_shutdown_spec (discards : nat → bool) s :
  clients_ (on_shutdown discards s)
  = (λ c, if discards (handle (tcp_client c)) then on_disconnect c else c)
      <$> clients_ s
  ∧ trace (on_shutdown discards s)
    = trace s ++ ((λ c, TcpClose (handle (tcp_client c)) true) <$> clients_ s)
  ∧ recv_buf_ (on_shutdown discards s) = recv_buf_ s
  ∧ stream_ (on_shutdown discards s) = stream_ s
  ∧ framer (on_shutdown discards s) = framer s.
Proof.
  destruct (close_all_spec discards (clients_ s) s) as (Hc & Hrest).
  split; [|exact Hrest]. unfold on_shutdown. rewrite Hc.
  apply list_fmap_ext. intros i c Hi. simpl.
  rewrite decide_True; [done |].
  unfold handles. apply list_elem_of_fmap. exists c.
  split; [done | by eapply list_elem_of_lookup_2].
Qed.

Lemma evolves_refl c : evolves c c.
Proof. by repeat split. Qed.

Lemma fire_evolves (h : nat) (callback : Client → Client) s c' :
  (∀ c, evolves c (callback c)) →
  c' ∈ clients_ (fire h callback s) → ∃ c0, c0 ∈ clients_ s ∧ evolves c0 c'.
Proof.
  intros Hcb. unfold fire. simpl. rewrite list_elem_of_fmap.
  intros (c0 & -> & Hc0). exists c0. split; [done |].
  destruct (decide (owns h c0)); [apply Hcb | apply evolves_refl].
Qed.

(** Every client found in the registry after a step descends from a
    client that was there before, unless the step has just constructed it. *)
Lemma step_clients (uart_api : bool) e s s' c' :
  step uart_api e s = Some s' → c' ∈ clients_ s' →
  (∃ c0, c0 ∈ clients_ s ∧ evolves c0 c')
  ∨ (∃ client, e = EvClient (Some client) ∧ c' = (new_Client client).1).
Proof.
  intros Hstep Hc'. destruct e as [[client|]|h|h|h|h data len| |discards]; simpl in Hstep.
  - injection Hstep as <-. simpl in Hc'.
    apply elem_of_app in Hc' as [Hc'|Hc'].
    + left. exists c'. split; [done | apply evolves_refl].
    + right. exists client. apply list_elem_of_singleton in Hc'. by subst.
  - injection Hstep as <-. left. exists c'. split; [done | apply evolves_refl].
  - injection Hstep as <-. left. eapply fire_evolves; [|done]. by repeat split.
  - injection Hstep as <-. left. eapply fire_evolves; [|done]. by repeat split.
  - injection Hstep as <-. left. eapply fire_evolves; [|done]. by repeat split.
  - left. exists c'. split; [| apply evolves_refl].
    destruct (decide (Exists (owns h) (clients_ s))).
    + destruct (on_data data len (recv_buf_ s)); simpl in Hstep; [|done].
      by injection Hstep as <-.
    + by injection Hstep as <-.
  - left. exists c'. split; [| apply evolves_refl].
    destruct (loop_spec uart_api s) as (s2 & new & Hl & _ & Hperm & _).
    rewrite Hl in Hstep. injection Hstep as <-.
    rewrite Hperm in Hc'. by apply list_elem_of_filter in Hc' as [_ Hc'].
  - injection Hstep as <-. left.
    destruct (on_shutdown_spec discards s) as (Hcs & _). rewrite Hcs in Hc'.
    apply list_elem_of_fmap in Hc' as (c0 & -> & Hc0). exists c0. split; [done |].
    destruct (discards _); [by repeat split | apply evolves_refl].
Qed.

(** Distinct clients of a registry own distinct connections, so the
    handle names the client. *)
Lemma handles_inj (cs : list Client) c1 c2 :
  NoDup (handles cs) → c1 ∈ cs → c2 ∈ cs →
  handle (tcp_client c1) = handle (tcp_client c2) → c1 = c2.
Proof.
  unfold handles. induction cs as [|c cs IH]; intros Hnd H1 H2 Heq.
  { by apply elem_of_nil in H1. }
  rewrite fmap_cons in Hnd. apply NoDup_cons in Hnd as [Hc Hnd].
  apply elem_of_cons in H1 as [->|H1]; apply elem_of_cons in H2 as [->|H2].
  - done.
  - exfalso. apply Hc. rewrite Heq. apply list_elem_of_fmap. eauto.
  - exfalso. apply Hc. rewrite <- Heq. apply list_elem_of_fmap. eauto.
  - by apply IH.
Qed.

Lemma handles_fire (h : nat) (callback : Client → Client) s :
  (∀ c, tcp_client (callback c) = tcp_client c) →
  handles (clients_ (fire h callback s)) = handles (clients_ s).
Proof.
  intros Hcb. unfold fire, handles. simpl. rewrite <- list_fmap_compose.
  apply list_fmap_ext. intros i c _. simpl.
  destruct (decide (owns h c)); [by rewrite Hcb | done].
Qed.

(** The first half of [env_ok] is an invariant of the component: a step
    taken in a good environment leaves the connections of the registry
    distinct. *)
Lemma step_handles_nodup (uart_api : bool) e s s' :
  env_ok e s → step uart_api e s = Some s' → NoDup (handles (clients_ s')).
Proof.
  intros [Hnd Hfresh] Hstep.
  destruct e as [[client|]|h|h|h|h data len| |discards]; simpl in Hstep.
  - injection Hstep as <-. simpl. unfold handles in *. rewrite fmap_app.
    apply NoDup_app. split; [done |]. split; [| apply NoDup_singleton].
    intros x Hx Hx'. apply list_elem_of_singleton in Hx'. by subst.
  - by injection Hstep as <-.
  - injection Hstep as <-. by rewrite handles_fire.
  - injection Hstep as <-. by rewrite handles_fire.
  - injection Hstep as <-. by rewrite handles_fire.
  - destruct (decide (Exists (owns h) (clients_ s))).
    + destruct (on_data data len (recv_buf_ s)); simpl in Hstep; [|done].
      by injection Hstep as <-.
    + by injection Hstep as <-.
  - destruct (loop_spec uart_api s) as (s2 & new & Hl & _ & Hperm & _).
    rewrite Hl in Hstep. injection Hstep as <-.
    unfold handles in *. rewrite Hperm.
    eapply sublist_NoDup; [exact Hnd |].
    apply fmap_sublist, sublist_filter.
  - injection Hstep as <-.
    destruct (on_shutdown_spec discards s) as (Hcs & _). rewrite Hcs.
    unfold handles in *. rewrite <- list_fmap_compose.
    erewrite list_fmap_ext; [exact Hnd |].
    intros i c _. simpl. by destruct (discards _).
Qed.

End system.

(** * The claims *)

Section claims.
  Import Framer LineSpec Examples.

(** C1, as stated, fails: for the input "a\0b\r" the specification's
    framing gives the one line "a\0b", but the line [readline] returns is a
    NUL-terminated string and reads "a". *)
Lemma returned_lines_nul_counterexample :
  returned_lines nul_input Framer.init ≠ spec_lines nul_input.
Proof. vm_compute. discriminate. Qed.

(** The bytes of a completed segment are bytes of the input. *)
Lemma cr_segments_elem (input seg : list byte) (c : byte) :
  seg ∈ cr_segments input → c ∈ seg → c ∈ input.
Proof.
  revert seg. induction input as [|b rest IH]; intros seg Hseg Hc; simpl in Hseg.
  { by apply elem_of_nil in Hseg. }
  destruct (decide (b = CR)) as [->|Hb].
  - apply elem_of_cons in Hseg as [->|Hseg].
    + by apply elem_of_nil in Hc.
    + right. by eapply IH.
  - destruct (cr_segments rest) as [|s ss]; [by apply elem_of_nil in Hseg |].
    apply elem_of_cons in Hseg as [->|Hseg].
    + apply elem_of_cons in Hc as [->|Hc]; [left | right; eapply IH; [left | done]].
    + right. eapply IH; [by right | done].
Qed.

Lemma spec_line_elem (seg : list byte) (c : byte) : c ∈ spec_line seg → c ∈ seg.
Proof.
  unfold spec_line, strip_lf. intros Hc.
  apply elem_of_take in Hc as (i & Hc & _).
  apply list_elem_of_lookup_2 in Hc. by apply list_elem_of_filter in Hc as [_ Hc].
Qed.

(** C1, amended: for every byte sequence fed to [readline] one byte per
    call, starting from the initial state, the lines returned are the
    carriage-return-terminated segments of the input, in order, each with
    its line feeds removed, cut to its first [LINE_SIZE - 1] = 79 bytes and,
    being returned as a NUL-terminated string, ending before its first zero
    byte if it has one; a call returns a line exactly when its byte is a
    carriage return; and for an input without zero bytes the lines are
    those the specification gives. *)
Theorem returned_lines_framing (input : list byte) :
  returned_lines input Framer.init = (c_str ∘ spec_line) <$> cr_segments input
  ∧ (λ r, bool_decide (is_Some r)) <$> feed_calls input Framer.init
    = (λ c, bool_decide (c = CR)) <$> input
  ∧ (NUL ∉ input → returned_lines input Framer.init = spec_lines input).
Proof.
  assert (Hlines : returned_lines input Framer.init
                   = (c_str ∘ spec_line) <$> cr_segments input).
  { rewrite FramerFacts.returned_lines_pending by apply FramerFacts.wf_init.
    destruct (cr_segments input) as [|seg segs]; [done |].
    by rewrite fmap_cons. }
  split; [done |]. split; [apply FramerFacts.feed_calls_some |].
  intros Hnul. rewrite Hlines. unfold spec_lines.
  apply list_fmap_ext. intros i seg Hseg. simpl.
  apply FramerFacts.c_str_no_nul. intros Hin. apply Hnul.
  eapply cr_segments_elem; [by eapply list_elem_of_lookup_2 |].
  by apply spec_line_elem.
Qed.

(** [returned_lines_framing] at "ab\ncd\r", an input without zero bytes:
    one line, "abcd". *)
Lemma returned_lines_framing_witness :
  (NUL ∉ plain_input)
  ∧ returned_lines plain_input Framer.init = [[x61; x62; x63; x64]].
Proof.
  assert (Hnul : NUL ∉ plain_input)
    by (apply (bool_decide_unpack _); vm_compute; exact I).
  split; [exact Hnul |].
  destruct (returned_lines_framing plain_input) as (_ & _ & H).
  rewrite (H Hnul). reflexivity.
Defined.

(** C2, as stated, fails: with a dead client registered ahead of two live
    ones, [cleanup()] leaves the live ones in the registry in the opposite
    order. *)
Lemma cleanup_order_counterexample :
  (clients_ <$> cleanup registry_state) = Some [c3; c2]
  ∧ (clients_ <$> cleanup registry_state)
    ≠ Some (filter (λ c, disconnected c = false) (clients_ registry_state)).
Proof. split; [reflexivity | vm_compute; discriminate]. Qed.

(** C2, amended: for every registry state [cleanup()] returns, and
    afterwards the registry holds exactly the clients whose [disconnected]
    flag was false at call time, each as often as before and unchanged, so
    still with a false flag; their relative order is not kept in general. *)
Theorem cleanup_keeps_live (s : State) :
  ∃ s', cleanup s = Some s'
    ∧ clients_ s' ≡ₚ filter (λ c, disconnected c = false) (clients_ s)
    ∧ Forall (λ c, disconnected c = false) (clients_ s').
Proof.
  destruct (cleanup_spec s) as (s' & dead & Hc & Hlive & _).
  exists s'. split; [done |]. split; [done |].
  rewrite Hlive. apply Forall_forall. intros c Hc'.
  by apply list_elem_of_filter in Hc' as [Hc' _].
Qed.

(** C3 fails on the code: [read()] hands each chunk to [readline] once, and
    [readline] returns at the first carriage return. When "a\rb\r" is read
    as one chunk, one line, "a", is published; the bytes "b\r" are never
    framed, and no byte is pending afterwards. *)
Theorem read_two_lines_one_chunk :
  ∃ s', read (read_fuel two_lines_state) two_lines_state = Some s'
    ∧ uart_chunks (trace s') = [[x61; x0d; x62; x0d]]
    ∧ published (trace s') = [[x61]]
    ∧ Framer.pending (framer s') = [].
Proof. eexists. split; [reflexivity |]. by vm_compute. Qed.

(** C4: whatever the receive buffer holds when [write()] starts, in either
    build, [write()] returns, the bytes handed to the stream during it are
    the buffer's bytes, once each and in buffer order, and the buffer is
    empty afterwards. *)
Theorem write_drains_recv_buf (uart_api : bool) (s : State) :
  ∃ s', write uart_api s = Some s'
    ∧ uart_written (trace s') = uart_written (trace s) ++ recv_buf_ s
    ∧ recv_buf_ s' = [].
Proof.
  destruct (write_spec uart_api s) as (s' & new & Hw & Ht & Hu & Hb & _).
  exists s'. split; [done |]. split; [|done].
  by rewrite Ht, uart_written_app, Hu.
Qed.

(** C5: a tick returns, and every chunk read during it is written, once
    per chunk, to the clients the cleanup left in the registry, which are
    the clients whose [disconnected] flag was false when the cleanup
    started: a connection is written a chunk exactly when the chunk was
    read in this tick and the connection belongs to such a client. *)
Theorem loop_broadcasts_to_live (uart_api : bool) (s : State) :
  ∃ s' new, loop uart_api s = Some s'
    ∧ trace s' = trace s ++ new
    ∧ clients_ s' ≡ₚ filter (λ c, disconnected c = false) (clients_ s)
    ∧ tcp_writes new = (chunk ← uart_chunks new; fan_out (clients_ s') chunk)
    ∧ ∀ h chunk,
        (h, chunk) ∈ tcp_writes new
        ↔ chunk ∈ uart_chunks new
          ∧ ∃ c, c ∈ clients_ s ∧ disconnected c = false ∧ handle (tcp_client c) = h.
Proof.
  destruct (loop_spec uart_api s) as (s' & new & Hl & Ht & Hperm & Hw & _).
  exists s', new. do 4 (split; [done |]).
  intros h chunk. rewrite Hw, list_elem_of_bind. split.
  - intros (d & Hin & Hd). apply elem_of_fan_out in Hin as [-> Hh].
    split; [done |].
    unfold handles in Hh. apply list_elem_of_fmap in Hh as (c & -> & Hc).
    rewrite Hperm in Hc. apply list_elem_of_filter in Hc as [Hlive Hc].
    by exists c.
  - intros [Hchunk (c & Hc & Hlive & <-)]. exists chunk. split; [|done].
    apply elem_of_fan_out. split; [done |].
    unfold handles. apply list_elem_of_fmap. exists c. split; [done |].
    rewrite Hperm. by apply list_elem_of_filter.
Qed.

(** C6: the [disconnected] flag of a client is false when the client is
    constructed; each of the error, disconnect and timeout callbacks sets it
    to true whatever it was; and no event of the system (a callback, an
    accepted connection, a tick of the loop, the shutdown) leads from a
    registry where a client has the flag set to one where the client of
    the same connection has it clear. Connection objects that are alive
    have distinct addresses ([env_ok]). *)
Theorem disconnected_flag_monotonic :
  (∀ client, disconnected (new_Client client).1 = false)
  ∧ (∀ c, disconnected (on_error c) = true
          ∧ disconnected (on_disconnect c) = true
          ∧ disconnected (on_timeout c) = true)
  ∧ (∀ uart_api e s s' c c',
       env_ok e s → step uart_api e s = Some s' →
       c ∈ clients_ s → c' ∈ clients_ s' →
       handle (tcp_client c') = handle (tcp_client c) →
       disconnected c = true → disconnected c' = true).
Proof.
  split; [done |]. split; [done |].
  intros uart_api e s s' c c' [Hnd Hfresh] Hstep Hc Hc' Hh Hset.
  destruct (step_clients _ _ _ _ _ Hstep Hc')
    as [(c0 & Hc0 & Htcp & _ & Hmono)|(client & -> & ->)].
  - apply Hmono. rewrite Htcp in Hh.
    by rewrite (handles_inj _ c0 c Hnd Hc0 Hc Hh).
  - exfalso. apply Hfresh. simpl in Hh. rewrite Hh.
    unfold handles. apply list_elem_of_fmap. eauto.
Qed.

(** [disconnected_flag_monotonic] at a timeout on the second connection of
    the example registry: the first client, already flagged, stays flagged. *)
Lemma disconnected_flag_monotonic_witness :
  env_ok (EvTimeout 2) registry_state
  ∧ step true (EvTimeout 2) registry_state
    = Some (set_clients [c1; on_timeout c2; c3] registry_state)
  ∧ disconnected c1 = true.
Proof.
  assert (Henv : env_ok (EvTimeout 2) registry_state)
    by (apply (bool_decide_unpack _); vm_compute; exact I).
  assert (Hstep : step true (EvTimeout 2) registry_state
                  = Some (set_clients [c1; on_timeout c2; c3] registry_state))
    by reflexivity.
  split; [exact Henv |]. split; [exact Hstep |].
  destruct disconnected_flag_monotonic as (_ & _ & H).
  apply (H true (EvTimeout 2) registry_state _ c1 c1 Henv Hstep).
  - apply (bool_decide_unpack _); vm_compute; exact I.
  - apply (bool_decide_unpack _); vm_compute; exact I.
  - reflexivity.
  - reflexivity.
Defined.

(** C7: the data callback leaves the receive buffer as it is when the
    length is zero or the payload pointer is null; otherwise the buffer
    afterwards is the buffer before followed by the [len] payload bytes, in
    order. *)
Theorem on_data_appends (data : option (list byte)) (len : nat) (recv_buf : list byte) :
  (len = 0 ∨ data = None → on_data data len recv_buf = Some recv_buf)
  ∧ (∀ mem, data = Some mem → 0 < len ≤ length mem →
       on_data data len recv_buf = Some (recv_buf ++ take len mem)).
Proof.
  unfold on_data. split.
  - intros [->| ->]; [done |]. by destruct (decide (len = 0)).
  - intros mem -> [Hpos Hlen].
    rewrite decide_False by lia. by rewrite decide_True by done.
Qed.

(** [on_data_appends] at a null payload and at two bytes taken from a
    payload of three. *)
Lemma on_data_appends_witness :
  on_data None 2 [x01] = Some [x01]
  ∧ on_data (Some [x61; x62; x63]) 2 [x01] = Some [x01; x61; x62].
Proof.
  split.
  - apply (proj1 (on_data_appends None 2 [x01])). right. reflexivity.
  - apply (proj2 (on_data_appends (Some [x61; x62; x63]) 2 [x01]) [x61; x62; x63]).
    + reflexivity.
    + simpl. lia.
Defined.

(** C8: the connection-accepted callback with a null connection leaves the
    component, and so the registry, as it was; with a connection it adds
    one client, newly constructed for that connection, at the end of the
    registry and changes no other entry. *)
Theorem on_client_appends (s : State) :
  on_client None s = s
  ∧ ∀ client,
      clients_ (on_client (Some client) s)
      = clients_ s ++ [{| tcp_client := client;
                          identifier := remoteIP client;
                          disconnected := false |}].
Proof. done. Qed.

(** C9: when a chunk has a carriage return, the bytes behind the first one
    do not reach the framer: the state of the framer after the chunk, the
    line returned for it and the line published are those of the chunk cut
    off after that carriage return, whatever follows it; the clients are
    still written the whole chunk. *)
Theorem read_chunk_ignores_after_cr (pre post : list byte) (s : State) :
  CR ∉ pre →
  readline (pre ++ CR :: post) (framer s) = readline (pre ++ [CR]) (framer s)
  ∧ framer (read_chunk (pre ++ CR :: post) s) = framer (read_chunk (pre ++ [CR]) s)
  ∧ published (trace (read_chunk (pre ++ CR :: post) s))
    = published (trace (read_chunk (pre ++ [CR]) s))
  ∧ tcp_writes (trace (read_chunk (pre ++ CR :: post) s))
    = tcp_writes (trace s) ++ fan_out (clients_ s) (pre ++ CR :: post).
Proof.
  intros Hcr.
  assert (Hrl : ∀ st, readline (pre ++ CR :: post) st = readline (pre ++ [CR]) st).
  { clear s. induction pre as [|c pre IH]; intros st; [done |].
    rewrite not_elem_of_cons in Hcr. destruct Hcr as [Hc Hpre].
    simpl. rewrite !(decide_False (P := c = CR)) by done.
    repeat case_decide; by rewrite IH. }
  destruct (read_chunk_spec (pre ++ CR :: post) s) as (_ & _ & _ & Hf1 & Ht1).
  destruct (read_chunk_spec (pre ++ [CR]) s) as (_ & _ & _ & Hf2 & Ht2).
  split; [apply Hrl |]. split; [by rewrite Hf1, Hf2, Hrl |].
  split.
  - by rewrite Ht1, Ht2, !published_app, !turn_effects_published, Hrl.
  - by rewrite Ht1, tcp_writes_app, turn_effects_tcp_writes.
Qed.

(** [read_chunk_ignores_after_cr] at the chunk "a\rb\r": "a" is published
    and nothing of "b\r" is pending. *)
Lemma read_chunk_ignores_after_cr_witness :
  (CR ∉ [x61])
  ∧ published (trace (read_chunk [x61; x0d; x62; x0d] registry_state)) = [[x61]]
  ∧ Framer.pending (framer (read_chunk [x61; x0d; x62; x0d] registry_state)) = [].
Proof.
  assert (Hcr : CR ∉ [x61])
    by (apply (bool_decide_unpack _); vm_compute; exact I).
  split; [exact Hcr |].
  destruct (read_chunk_ignores_after_cr [x61] [x62; x0d] registry_state Hcr)
    as (_ & Hf & Hp & _).
  split.
  - etransitivity; [exact Hp | reflexivity].
  - etransitivity; [exact (f_equal Framer.pending Hf) | reflexivity].
Defined.

(** C10, as stated, fails: when the TCP library runs the on-disconnect
    handler of a connection inside [close(true)], as the upstream libraries
    do for an open connection, [on_shutdown()] on a registry of two live
    clients returns with both [disconnected] flags set. *)
Lemma on_shutdown_flags_counterexample :
  (disconnected <$> clients_ (on_shutdown (λ _, true) open_registry_state))
  = [true; true]
  ∧ (disconnected <$> clients_ (on_shutdown (λ _, true) open_registry_state))
    ≠ (disconnected <$> clients_ open_registry_state).
Proof. split; [reflexivity | vm_compute; discriminate]. Qed.

(** C10, amended: [on_shutdown()] closes the connection of every client, in
    registry order and with [now = true], and leaves the entries of the
    registry in place: the same number of clients in the same order, each
    with its connection and its identifier. A [disconnected] flag is never
    cleared: it is as before, or set when the library ran the on-disconnect
    handler of the client's connection during the close. The receive
    buffer, the stream and the framer are untouched. *)
Theorem on_shutdown_keeps_entries (discards : nat → bool) (s : State) :
  clients_ (on_shutdown discards s)
  = (λ c, {| tcp_client := tcp_client c;
             identifier := identifier c;
             disconnected := disconnected c || discards (handle (tcp_client c)) |})
      <$> clients_ s
  ∧ trace (on_shutdown discards s)
    = trace s ++ ((λ c, TcpClose (handle (tcp_client c)) true) <$> clients_ s)
  ∧ recv_buf_ (on_shutdown discards s) = recv_buf_ s
  ∧ stream_ (on_shutdown discards s) = stream_ s
  ∧ framer (on_shutdown discards s) = framer s.
Proof.
  destruct (on_shutdown_spec discards s) as (Hcs & Hrest).
  split; [|exact Hrest]. rewrite Hcs.
  apply list_fmap_ext. intros i c _. simpl.
  destruct (discards (handle (tcp_client c))).
  - unfold on_disconnect. by rewrite orb_true_r.
  - rewrite orb_false_r. by destruct c.
Qed.

End claims.

(** * Further properties *)

(** ** The framer on whole chunks *)

Section framer_chunks.
Import Framer LineSpec.
Implicit Types (st : Framer.t) (buf pre post : list byte).

Lemma strip_lf_app (a b : list byte) : strip_lf (a ++ b) = strip_lf a ++ strip_lf b.
Proof. apply filter_app. Qed.

Lemma take_take_app {A} (n : nat) (l k : list A) :
  take n (take n l ++ k) = take n (l ++ k).
Proof.
  destruct (decide (n ≤ length l)) as [Hn|Hn].
  - rewrite take_app_length' by (rewrite length_take; lia).
    by rewrite take_app_le by done.
  - by rewrite (take_ge l) by lia.
Qed.

(** The well-formedness of the accumulator is an invariant of [readline]. *)
Lemma readline_preserves_wf buf st : wf st → wf (readline buf st).2.
Proof.
  revert st. induction buf as [|c buf IH]; intros st Hwf; [done |].
  simpl. repeat case_decide.
  - by apply IH.
  - by apply FramerFacts.wf_terminate.
  - by apply IH, FramerFacts.wf_store.
  - by apply IH.
Qed.

(** X1: [readline] keeps the accumulator well formed, whatever the chunk:
    the buffer keeps its [LINE_SIZE] cells and the cursor stays below
    [LINE_SIZE], so every store [line[pos] = ...] is inside the buffer. *)
Theorem readline_wf buf st : wf st → wf (readline buf st).2.
Proof. exact (readline_preserves_wf buf st). Qed.

Lemma readline_wf_witness :
  wf Framer.init ∧ wf (readline [x61; x0d; x62] Framer.init).2.
Proof.
  split; [apply FramerFacts.wf_init |].
  apply (readline_wf [x61; x0d; x62] Framer.init), FramerFacts.wf_init.
Defined.

(** Up to the first carriage return a chunk is consumed byte after byte. *)
Lemma readline_app_no_cr pre post st :
  CR ∉ pre → readline (pre ++ post) st = readline post (readline pre st).2.
Proof.
  revert st. induction pre as [|c pre IH]; intros st Hcr; [done |].
  rewrite not_elem_of_cons in Hcr. destruct Hcr as [Hc Hpre].
  simpl. rewrite !(decide_False (P := c = CR)) by done.
  repeat case_decide; by apply IH.
Qed.

(** A chunk without a carriage return only adds to the pending bytes. *)
Lemma readline_pending_no_cr buf st :
  wf st → CR ∉ buf →
  (readline buf st).1 = None
  ∧ pending (readline buf st).2
    = take (LINE_SIZE - 1) (pending st ++ strip_lf buf).
Proof.
  revert st. induction buf as [|c buf IH]; intros st Hwf Hcr.
  { split; [done |]. simpl. rewrite app_nil_r.
    rewrite take_ge; [done |].
    rewrite FramerFacts.pending_length by done. destruct Hwf.
    unfold LINE_SIZE in *. lia. }
  rewrite not_elem_of_cons in Hcr. destruct Hcr as [Hc Hbuf].
  cbn [readline]. rewrite (decide_False (P := c = CR)) by done.
  destruct (decide (c = LF)) as [->|Hlf].
  { rewrite FramerFacts.strip_lf_cons_lf. by apply IH. }
  rewrite FramerFacts.strip_lf_cons by done.
  destruct (decide (pos st < LINE_SIZE - 1)) as [Hroom|Hfull].
  - destruct (IH _ (FramerFacts.wf_store st c Hwf Hroom) Hbuf) as [Hr Hp].
    split; [done |]. rewrite Hp, FramerFacts.pending_store by done.
    by rewrite <- app_assoc.
  - destruct (IH st Hwf Hbuf) as [Hr Hp]. split; [done |]. rewrite Hp.
    assert (Hl : length (pending st) = LINE_SIZE - 1)
      by (rewrite FramerFacts.pending_length by done; destruct Hwf; lia).
    by rewrite !take_app_length' by done.
Qed.

(** X2: a chunk without a carriage return completes no line: [readline]
    returns [NULL], and the bytes pending afterwards are those pending
    before followed by the chunk's bytes other than line feeds, as far as
    the [LINE_SIZE - 1] bytes of room go. This is how a line split over
    several chunks is put together. *)
Theorem readline_no_cr buf st :
  wf st → CR ∉ buf →
  (readline buf st).1 = None
  ∧ pending (readline buf st).2
    = take (LINE_SIZE - 1) (pending st ++ strip_lf buf).
Proof. exact (readline_pending_no_cr buf st). Qed.

Lemma readline_no_cr_witness :
  (readline [x61; x0a; x62] Framer.init).1 = None
  ∧ pending (readline [x61; x0a; x62] Framer.init).2 = [x61; x62].
Proof.
  destruct (readline_no_cr [x61; x0a; x62] Framer.init) as [Hr Hp].
  - apply FramerFacts.wf_init.
  - apply (bool_decide_unpack _); vm_compute; exact I.
  - split; [exact Hr |]. etransitivity; [exact Hp | reflexivity].
Defined.

(** The line a chunk with a carriage return completes. *)
Lemma readline_line_cr pre post st :
  wf st → CR ∉ pre →
  (readline (pre ++ CR :: post) st).1
    = Some (c_str (take (LINE_SIZE - 1) (pending st ++ strip_lf pre)))
  ∧ pending (readline (pre ++ CR :: post) st).2 = [].
Proof.
  intros Hwf Hcr. rewrite readline_app_no_cr by done.
  destruct (readline_pending_no_cr pre st Hwf Hcr) as [_ Hp].
  pose proof (readline_preserves_wf pre st Hwf) as Hwf'.
  simpl. split; [|done].
  by rewrite FramerFacts.c_str_terminate, Hp by done.
Qed.

(** X3: a chunk with a carriage return completes one line, made of the
    bytes pending from earlier chunks followed by the chunk's bytes before
    that carriage return, line feeds left out, cut to [LINE_SIZE - 1] bytes
    and read as a NUL-terminated string; nothing is pending afterwards. *)
Theorem readline_cr pre post st :
  wf st → CR ∉ pre →
  (readline (pre ++ CR :: post) st).1
    = Some (c_str (take (LINE_SIZE - 1) (pending st ++ strip_lf pre)))
  ∧ pending (readline (pre ++ CR :: post) st).2 = [].
Proof. exact (readline_line_cr pre post st). Qed.

Lemma readline_cr_witness :
  (readline [x62; x0d; x63] (readline [x61] Framer.init).2).1 = Some [x61; x62]
  ∧ pending (readline [x62; x0d; x63] (readline [x61] Framer.init).2).2 = [].
Proof.
  destruct (readline_cr [x62] [x63] (readline [x61] Framer.init).2) as [Hr Hp].
  - apply (readline_preserves_wf [x61] Framer.init), FramerFacts.wf_init.
  - apply (bool_decide_unpack _); vm_compute; exact I.
  - split; [etransitivity; [exact Hr | reflexivity] | exact Hp].
Defined.

Lemma c_str_elem (l : list byte) (c : byte) : c ∈ c_str l → c ∈ l ∧ c ≠ NUL.
Proof.
  induction l as [|b l IH]; simpl; [by intros ?%elem_of_nil |].
  destruct (decide (b = NUL)) as [->|Hb]; [by intros ?%elem_of_nil |].
  intros [->|Hc]%elem_of_cons.
  - split; [left | done].
  - destruct (IH Hc). split; [by right | done].
Qed.

Lemma c_str_length (l : list byte) : length (c_str l) ≤ length l.
Proof.
  induction l as [|b l IH]; simpl; [done |].
  destruct (decide (b = NUL)); simpl; lia.
Qed.

Lemma elem_of_take_1 {A} (n : nat) (l : list A) (x : A) : x ∈ take n l → x ∈ l.
Proof. intros (i & Hx & _)%elem_of_take. by eapply list_elem_of_lookup_2. Qed.

Lemma strip_lf_elem (seg : list byte) (c : byte) : c ∈ strip_lf seg → c ∈ seg ∧ c ≠ LF.
Proof. unfold strip_lf. intros [? ?]%list_elem_of_filter. done. Qed.

Lemma tidy_init : tidy Framer.init.
Proof.
  split; [apply FramerFacts.wf_init |].
  split; unfold pending; simpl; apply not_elem_of_nil.
Qed.

(** Tidiness is an invariant of [readline], and gives good lines. *)
Lemma readline_tidy buf st :
  tidy st →
  tidy (readline buf st).2
  ∧ ∀ l, (readline buf st).1 = Some l → good_line l.
Proof.
  intros (Hwf & Hcr & Hlf).
  assert (Hacc : ∀ pre c, CR ∉ pre →
            c ∈ take (LINE_SIZE - 1) (pending st ++ strip_lf pre) →
            c ≠ CR ∧ c ≠ LF).
  { intros pre c Hpre Hc%elem_of_take_1.
    apply elem_of_app in Hc as [Hc|Hc]; [split; intros ->; done |].
    apply strip_lf_elem in Hc as [Hc Hne]. split; [by intros -> | done]. }
  destruct (decide (CR ∈ buf)) as [Hin|Hnot].
  - apply list_elem_of_split_l in Hin as (pre & post & -> & Hpre).
    destruct (readline_line_cr pre post st Hwf Hpre) as [Hr Hp].
    split.
    + split; [by apply readline_preserves_wf |]. rewrite Hp. split; apply not_elem_of_nil.
    + intros l Hl. rewrite Hr in Hl. injection Hl as <-.
      split; [|split; [|split]].
      * etransitivity; [apply c_str_length |]. rewrite length_take.
        apply Nat.le_min_l.
      * intros [Hc _]%c_str_elem. by destruct (Hacc pre CR Hpre Hc).
      * intros [Hc _]%c_str_elem. by destruct (Hacc pre LF Hpre Hc).
      * by intros [_ Hc]%c_str_elem.
  - destruct (readline_pending_no_cr buf st Hwf Hnot) as [Hr Hp].
    split.
    + split; [by apply readline_preserves_wf |]. rewrite Hp.
      split; intros Hc; by destruct (Hacc buf _ Hnot Hc).
    + intros l Hl. by rewrite Hr in Hl.
Qed.

(** X4: from a framer that holds no terminator among its pending bytes,
    whatever the chunk, the framer is in such a state again afterwards, and
    a line [readline] returns has at most [LINE_SIZE - 1] bytes and holds no
    carriage return, no line feed and no zero byte. *)
Theorem readline_good_line buf st :
  tidy st →
  tidy (readline buf st).2
  ∧ ∀ l, (readline buf st).1 = Some l → good_line l.
Proof. exact (readline_tidy buf st). Qed.

Lemma readline_good_line_witness :
  tidy Framer.init
  ∧ (readline [x61; x0a; x00; x62; x0d] Framer.init).1 = Some [x61]
  ∧ good_line [x61].
Proof.
  assert (Hr : (readline [x61; x0a; x00; x62; x0d] Framer.init).1 = Some [x61])
    by reflexivity.
  split; [apply tidy_init |]. split; [exact Hr |].
  exact (proj2 (readline_good_line _ Framer.init tidy_init) _ Hr).
Defined.

Lemma cr_segments_app_no_cr (a b : list byte) :
  CR ∉ a →
  cr_segments (a ++ b) = match cr_segments b with
                         | [] => []
                         | seg :: segs => (a ++ seg) :: segs
                         end.
Proof.
  induction a as [|c a IH]; intros Hcr; [simpl; by destruct (cr_segments b) |].
  rewrite not_elem_of_cons in Hcr. destruct Hcr as [Hc Ha].
  simpl. rewrite decide_False by done. rewrite IH by done.
  by destruct (cr_segments b).
Qed.

(** Bytes without a carriage return in front of an input only move the
    framer to the state in which the rest is fed. *)
Lemma returned_lines_app_no_cr (a b : list byte) st :
  wf st → CR ∉ a →
  returned_lines (a ++ b) st = returned_lines b (readline a st).2.
Proof.
  intros Hwf Hcr.
  rewrite !FramerFacts.returned_lines_pending by (done || by apply readline_preserves_wf).
  rewrite cr_segments_app_no_cr by done.
  destruct (cr_segments b) as [|seg segs]; [done |].
  destruct (readline_pending_no_cr a st Hwf Hcr) as [_ ->].
  by rewrite strip_lf_app, take_take_app, <- app_assoc.
Qed.

Lemma readline_line_feeds (lfs : list byte) st :
  Forall (λ c, c = LF) lfs → readline lfs st = (None, st).
Proof.
  induction 1 as [|c lfs -> _ IH]; [done |].
  cbn [readline]. by rewrite decide_True by done.
Qed.

Lemma line_feeds_no_cr (lfs : list byte) : Forall (λ c, c = LF) lfs → CR ∉ lfs.
Proof.
  intros Hlfs Hcr. rewrite Forall_forall in Hlfs. by specialize (Hlfs _ Hcr).
Qed.

(** One chunk that ends with its line, in front of an input: the chunk
    gives what feeding its bytes one by one gives. *)
Lemma returned_lines_aligned (chunk b : list byte) st :
  wf st → line_aligned chunk →
  returned_lines (chunk ++ b) st
  = option_list (readline chunk st).1 ++ returned_lines b (readline chunk st).2.
Proof.
  intros Hwf [Hcr|(pre & lfs & -> & Hpre & Hlfs)].
  - rewrite returned_lines_app_no_cr by done.
    by destruct (readline_pending_no_cr chunk st Hwf Hcr) as [-> _].
  - rewrite <- app_assoc. rewrite returned_lines_app_no_cr by done.
    rewrite (readline_app_no_cr pre (CR :: lfs)) by done.
    pose proof (readline_preserves_wf pre st Hwf) as Hwf1.
    set (st1 := (readline pre st).2) in *.
    rewrite <- app_comm_cons, FramerFacts.returned_lines_cons.
    rewrite FramerFacts.readline_byte. cbn [readline].
    rewrite !(decide_False (P := CR = LF)) by done.
    rewrite !(decide_True (P := CR = CR)) by done. cbn [fst snd option_list app].
    rewrite returned_lines_app_no_cr
      by (by apply FramerFacts.wf_terminate || by apply line_feeds_no_cr).
    by rewrite readline_line_feeds by done.
Qed.

(** X5: when every chunk ends with its line (it has no carriage return, or
    one that only line feeds follow), calling [readline] once per chunk
    returns the lines that feeding the same bytes one per call returns. *)
Theorem feed_chunks_aligned (chunks : list (list byte)) st :
  wf st → Forall line_aligned chunks →
  omap id (feed_chunks chunks st).1 = returned_lines (concat chunks) st.
Proof.
  intros Hwf Hall. revert st Hwf.
  induction Hall as [|chunk chunks Hchunk _ IH]; intros st Hwf; [done |].
  cbn [feed_chunks concat]. rewrite returned_lines_aligned by done.
  pose proof (readline_preserves_wf chunk st Hwf) as Hwf1.
  destruct (readline chunk st) as [r st1]. simpl in *.
  specialize (IH st1 Hwf1).
  destruct (feed_chunks chunks st1) as [rs st2]. simpl in *.
  rewrite <- IH. by destruct r.
Qed.

Lemma feed_chunks_aligned_witness :
  omap id (feed_chunks [[x61; x62]; [x63; x0d; x0a]; [x64; x0d]] Framer.init).1
  = returned_lines [x61; x62; x63; x0d; x0a; x64; x0d] Framer.init.
Proof.
  apply (feed_chunks_aligned [[x61; x62]; [x63; x0d; x0a]; [x64; x0d]] Framer.init).
  - apply FramerFacts.wf_init.
  - repeat apply Forall_cons_2; [| | | apply Forall_nil_2].
    + left. apply (bool_decide_unpack _); vm_compute; exact I.
    + right. exists [x63], [x0a]. split; [reflexivity |].
      split; [apply (bool_decide_unpack _); vm_compute; exact I |].
      by apply Forall_cons_2.
    + right. exists [x64], []. split; [reflexivity |].
      split; [apply (bool_decide_unpack _); vm_compute; exact I | apply Forall_nil_2].
Defined.

End framer_chunks.

(** ** The registry *)

Section registry_more.
Implicit Types (s : State) (c : Client).

(** On a vector that is partitioned already, [std::partition] swaps
    nothing. *)
Lemma partition_partitioned {A} (pred : A → bool) (l1 l2 : list A) :
  Forall (λ x, pred x = true) l1 → Forall (λ x, pred x = false) l2 →
  StdAlgo.partition pred (l1 ++ l2) = Some (l1 ++ l2, length l1).
Proof.
  intros H1 H2. rewrite Forall_lookup in H1. rewrite Forall_lookup in H2.
  set (v := l1 ++ l2).
  assert (Hfront : ∀ i x, i < length l1 → v !! i = Some x → pred x = true).
  { intros i x Hi Hx. unfold v in Hx. rewrite lookup_app_l in Hx by done. eauto. }
  assert (Hback : ∀ i x, length l1 ≤ i → v !! i = Some x → pred x = false).
  { intros i x Hi Hx. unfold v in Hx. rewrite lookup_app_r in Hx by done. eauto. }
  assert (Hlen : length v = length l1 + length l2) by (unfold v; by rewrite length_app).
  unfold StdAlgo.partition. cbn [StdAlgo.partition_loop].
  destruct (StdAlgoFacts.scan_up_spec pred (S (length v)) v 0 (length v))
    as [[-> Hup]|(i & x & -> & Hi & Hx & Hpx & Hup)]; [lia | lia | |].
  { destruct (decide (length l1 < length v)) as [Hlt|Hge]; [|do 2 f_equal; lia].
    destruct (lookup_lt_is_Some_2 v (length l1) Hlt) as [y Hy].
    pose proof (Hup (length l1) y ltac:(lia) Hy).
      pose proof (Hback (length l1) y ltac:(lia) Hy).
    congruence. }
  assert (i = length l1) as ->.
  { destruct (decide (i < length l1)) as [Hlt|Hge].
    - pose proof (Hfront _ _ Hlt Hx). congruence.
    - destruct (decide (i = length l1)) as [|Hne]; [done |].
      destruct (lookup_lt_is_Some_2 v (length l1) ltac:(lia)) as [y Hy].
      pose proof (Hup (length l1) y ltac:(lia) Hy).
      pose proof (Hback (length l1) y ltac:(lia) Hy).
      congruence. }
  destruct (StdAlgoFacts.scan_down_spec pred (S (length v)) v (length l1)
              (Nat.pred (length v)))
    as [[-> Hdown]|(j & y & -> & Hj & Hy & Hpy & Hdown)]; [lia | lia | done |].
  pose proof (Hback j y ltac:(lia) Hy). congruence.
Qed.

(** [cleanup()] on a registry with its live clients in front. *)
Lemma cleanup_of_partitioned s (live dead : list Client) :
  clients_ s = live ++ dead →
  Forall (λ c, disconnected c = false) live →
  Forall (λ c, disconnected c = true) dead →
  cleanup s = Some (set_clients live (emit (cleanup_effects dead) s)).
Proof.
  intros Hcs Hlive Hdead. unfold cleanup. rewrite Hcs.
  rewrite partition_partitioned.
  - cbn [mbind option_bind]. simpl.
    by rewrite take_app_length, drop_app_length.
  - eapply Forall_impl; [exact Hlive |]. intros c Hc. unfold discriminator. by rewrite Hc.
  - eapply Forall_impl; [exact Hdead |]. intros c Hc. unfold discriminator. by rewrite Hc.
Qed.

(** X6: when no dead client is registered ahead of a live one, [cleanup()]
    keeps the live clients in their order, and logs and deletes the dead
    ones in theirs; with no dead client at all it changes nothing but for
    an empty addition to the trace. *)
Theorem cleanup_partitioned s (live dead : list Client) :
  clients_ s = live ++ dead →
  Forall (λ c, disconnected c = false) live →
  Forall (λ c, disconnected c = true) dead →
  cleanup s = Some (set_clients live (emit (cleanup_effects dead) s)).
Proof. exact (cleanup_of_partitioned s live dead). Qed.

Lemma cleanup_partitioned_witness :
  clients_ <$> cleanup (set_clients [Examples.c2; Examples.c3; Examples.c1]
                          (setup Examples.idle_uart))
  = Some [Examples.c2; Examples.c3].
Proof.
  rewrite (cleanup_partitioned _ [Examples.c2; Examples.c3] [Examples.c1]).
  - reflexivity.
  - reflexivity.
  - by repeat apply Forall_cons_2.
  - by repeat apply Forall_cons_2.
Defined.

(** X7: [cleanup()] twice in a row: the second call finds nothing to evict;
    it leaves the registry in the order the first call gave it and adds
    nothing to the trace. *)
Theorem cleanup_twice s :
  ∃ s1 s2, cleanup s = Some s1 ∧ cleanup s1 = Some s2
    ∧ clients_ s2 = clients_ s1 ∧ trace s2 = trace s1.
Proof.
  destruct (cleanup_spec s) as (s1 & dead & Hc & Hlive & _).
  assert (Hall : Forall (λ c, disconnected c = false) (clients_ s1)).
  { rewrite Hlive. apply Forall_forall. intros c Hc'.
    by apply list_elem_of_filter in Hc' as [Hc' _]. }
  exists s1, (set_clients (clients_ s1) (emit (cleanup_effects []) s1)).
  split; [done |]. split.
  - apply cleanup_of_partitioned; [by rewrite app_nil_r | done | done].
  - split; [done |]. simpl. by rewrite app_nil_r.
Qed.

Lemma tcp_deletes_cleanup_effects (dead : list Client) :
  tcp_deletes (cleanup_effects dead) = handles dead.
Proof.
  unfold cleanup_effects, tcp_deletes. rewrite omap_app.
  rewrite omap_fmap_none by done. simpl.
  by apply omap_fmap_some.
Qed.

(** X8: [cleanup()] deletes the connections of the dead clients, each as
    often as it was registered, and no other; every connection of the
    registry is afterwards either still registered or deleted. *)
Theorem cleanup_deletes_dead s :
  ∃ s', cleanup s = Some s'
    ∧ tcp_deletes (since s s')
      ≡ₚ handles (filter (λ c, disconnected c = true) (clients_ s))
    ∧ handles (clients_ s') ++ tcp_deletes (since s s') ≡ₚ handles (clients_ s).
Proof.
  destruct (cleanup_spec s) as (s' & dead & Hc & Hlive & Hdead & Ht & _).
  exists s'. split; [done |].
  assert (Hdel : tcp_deletes (since s s') = handles dead).
  { unfold since. rewrite Ht, drop_app_length. apply tcp_deletes_cleanup_effects. }
  rewrite Hdel. unfold handles. split; [by rewrite Hdead |].
  rewrite <- fmap_app, Hlive, Hdead.
  apply fmap_Permutation.
  rewrite <- (filter_app_complement (λ c, disconnected c = false) (clients_ s)) at 3.
  apply Permutation_app; [done |].
  erewrite list_filter_iff; [done |].
  intros c. simpl. destruct (disconnected c); split; congruence.
Qed.

End registry_more.

(** ** The read phase, chunk by chunk *)

Section read_more.
Implicit Types (s : State) (c : Client) (tr : list Effect).

Lemma tcp_sent_to_app h tr1 tr2 :
  tcp_sent_to h (tr1 ++ tr2) = tcp_sent_to h tr1 ++ tcp_sent_to h tr2.
Proof. unfold tcp_sent_to. by rewrite omap_app, concat_app. Qed.

Lemma tcp_sent_to_stranger h (cs : list Client) (buf : list byte) :
  h ∉ handles cs →
  tcp_sent_to h ((λ c, TcpWrite (handle (tcp_client c)) buf) <$> cs) = [].
Proof.
  unfold handles, tcp_sent_to. induction cs as [|c cs IH]; intros Hh; [done |].
  rewrite fmap_cons, not_elem_of_cons in Hh. destruct Hh as [Hc Hcs].
  rewrite fmap_cons. simpl. rewrite decide_False by done. by apply IH.
Qed.

(** A client whose connection is registered once is written the chunk
    once. *)
Lemma tcp_sent_to_member (cs : list Client) c (buf : list byte) :
  NoDup (handles cs) → c ∈ cs →
  tcp_sent_to (handle (tcp_client c))
    ((λ c, TcpWrite (handle (tcp_client c)) buf) <$> cs) = buf.
Proof.
  induction cs as [|c0 cs IH]; intros Hnd Hc; [by apply elem_of_nil in Hc |].
  unfold handles in Hnd. rewrite fmap_cons in Hnd.
  apply NoDup_cons in Hnd as [Hc0 Hnd].
  rewrite fmap_cons.
  change (TcpWrite (handle (tcp_client c0)) buf :: ?l) with ([TcpWrite (handle (tcp_client c0)) buf] ++ l).
  rewrite tcp_sent_to_app.
  destruct (decide (handle (tcp_client c0) = handle (tcp_client c))) as [Heq|Hne].
  - rewrite tcp_sent_to_stranger by (by rewrite <- Heq).
    unfold tcp_sent_to. simpl. rewrite decide_True by done. simpl.
    by rewrite !app_nil_r.
  - apply elem_of_cons in Hc as [->|Hc]; [done |].
    rewrite IH by done. unfold tcp_sent_to. simpl. by rewrite decide_False by done.
Qed.

Lemma tcp_sent_to_turn (cs : list Client) c line (buf : list byte) :
  NoDup (handles cs) → c ∈ cs →
  tcp_sent_to (handle (tcp_client c)) (turn_effects cs line buf) = buf.
Proof.
  intros Hnd Hc. unfold turn_effects. rewrite tcp_sent_to_app.
  rewrite tcp_sent_to_member by done. by destruct line.
Qed.

Lemma available_bytes (st : Stream.t) :
  Stream.rx st ++ concat (Stream.incoming st)
  = Stream.rx (Stream.available st).2
    ++ concat (Stream.incoming (Stream.available st).2).
Proof.
  unfold Stream.available. destruct (Stream.incoming st) as [|batch later] eqn:Hin; simpl.
  - by rewrite Hin.
  - by rewrite <- app_assoc.
Qed.

(** The read loop in full: what it takes from the stream, what it hands to
    the framer, the sensor and the clients. *)
Lemma read_full (fuel : nat) s :
  Stream.backlog (stream_ s) < fuel →
  ∃ s' new, read fuel s = Some s'
    ∧ trace s' = trace s ++ new
    ∧ published new = omap id (feed_chunks (uart_chunks new) (framer s)).1
    ∧ framer s' = (feed_chunks (uart_chunks new) (framer s)).2
    ∧ Stream.rx (stream_ s') = []
    ∧ Forall (λ chunk, 0 < length chunk ≤ BUF_SIZE) (uart_chunks new)
    ∧ Stream.rx (stream_ s) ++ concat (Stream.incoming (stream_ s))
      = concat (uart_chunks new) ++ concat (Stream.incoming (stream_ s'))
    ∧ (NoDup (handles (clients_ s)) → ∀ c, c ∈ clients_ s →
       tcp_sent_to (handle (tcp_client c)) new = concat (uart_chunks new)).
Proof.
  revert s. induction fuel as [|fuel IH]; intros s Hfuel; [lia |].
  cbn [read].
  destruct (available_spec (stream_ s)) as [Hlen Hback].
  pose proof (available_bytes (stream_ s)) as Hbytes.
  destruct (Stream.available (stream_ s)) as [len st] eqn:Hav.
  simpl in Hlen, Hback, Hbytes.
  destruct (decide (0 < len)) as [Hpos|Hzero].
  - pose proof (read_array_backlog (len `min` BUF_SIZE) st) as Hrd.
    unfold Stream.read_array in Hrd |- *. simpl in Hrd. specialize (Hrd ltac:(lia)).
    set (buf := take (len `min` BUF_SIZE) (Stream.rx st)) in *.
    set (st2 := {| Stream.rx := drop (len `min` BUF_SIZE) (Stream.rx st);
                   Stream.incoming := Stream.incoming st |}) in *.
    set (s1 := emit [UartRead buf] (set_stream st2 s)).
    destruct (read_chunk_spec buf s1) as (Hc & Hb & Hs & Hf & Ht).
    destruct (IH (read_chunk buf s1))
      as (s' & new & Hr & Htr & Hpub & Hfr & Hrx & Hsz & Hcons & Hsent).
    { rewrite Hs. simpl. unfold BUF_SIZE in *. lia. }
    rewrite Hs in Hcons. rewrite Hc in Hsent. simpl in Hcons, Hsent.
    rewrite Hf in Hpub, Hfr. simpl in Hpub, Hfr.
    set (line := (Framer.readline buf (framer s)).1) in *.
    exists s', ([UartRead buf] ++ turn_effects (clients_ s) line buf ++ new).
    rewrite !uart_chunks_app, turn_effects_uart_chunks. simpl.
    split; [done |]. split.
    { rewrite Htr, Ht. simpl. by rewrite <- !app_assoc. }
    destruct (Framer.readline buf (framer s)) as [r st1] eqn:Hrl. simpl in *.
    destruct (feed_chunks (uart_chunks new) st1) as [rs st3] eqn:Hfc. simpl in *.
    split.
    { rewrite published_app, turn_effects_published, Hpub. unfold line.
      by destruct r. }
    split; [done |]. split; [done |]. split.
    { apply Forall_cons_2; [|done]. unfold buf. rewrite length_take.
      unfold BUF_SIZE. lia. }
    split.
    { rewrite Hbytes, <- (take_drop (len `min` BUF_SIZE) (Stream.rx st)).
      fold buf. by rewrite <- app_assoc, Hcons, app_assoc. }
    intros Hnd c Hin.
    change (UartRead buf :: ?l) with ([UartRead buf] ++ l).
    rewrite !tcp_sent_to_app, tcp_sent_to_turn, Hsent by done. done.
  - exists (set_stream st s), []. simpl. rewrite app_nil_r.
    assert (Hnil : Stream.rx st = []).
    { destruct (Stream.rx st); [done | simpl in Hlen; lia]. }
    repeat split; try done.
    by rewrite Hbytes, Hnil.
Qed.

Lemma since_app s s' (new : list Effect) :
  trace s' = trace s ++ new → since s s' = new.
Proof. intros Ht. unfold since. by rewrite Ht, drop_app_length. Qed.

End read_more.

Section read_theorems.
Implicit Types (s : State) (c : Client).

(** X9: [read()] empties the stream: it returns with nothing left to read,
    every chunk it took has between one and [BUF_SIZE] bytes, and the
    chunks, in order, are the bytes the stream held or received, none lost,
    repeated or reordered; the batches that had not arrived yet when the
    stream last reported zero bytes are still to come. *)
Theorem read_takes_everything s :
  ∃ s', read (read_fuel s) s = Some s'
    ∧ Stream.rx (stream_ s') = []
    ∧ Forall (λ chunk, 0 < length chunk ≤ BUF_SIZE) (uart_chunks (since s s'))
    ∧ Stream.rx (stream_ s) ++ concat (Stream.incoming (stream_ s))
      = concat (uart_chunks (since s s')) ++ concat (Stream.incoming (stream_ s')).
Proof.
  destruct (read_full (read_fuel s) s)
    as (s' & new & Hr & Ht & _ & _ & Hrx & Hsz & Hcons & _).
  { unfold read_fuel. lia. }
  exists s'. by rewrite (since_app _ _ _ Ht).
Qed.

(** X10: the lines [read()] publishes are the lines [readline] returns when
    it is called once for each chunk read, in order, starting from the
    framer as the phase found it; the framer is left as the last call left
    it. So at most one line is published per chunk. *)
Theorem read_publishes_chunkwise s :
  ∃ s', read (read_fuel s) s = Some s'
    ∧ published (since s s')
      = omap id (feed_chunks (uart_chunks (since s s')) (framer s)).1
    ∧ framer s' = (feed_chunks (uart_chunks (since s s')) (framer s)).2.
Proof.
  destruct (read_full (read_fuel s) s) as (s' & new & Hr & Ht & Hpub & Hfr & _).
  { unfold read_fuel. lia. }
  exists s'. by rewrite (since_app _ _ _ Ht).
Qed.

(** X11: when the connections of the registry are distinct, the bytes
    written to the connection of any registered client during [read()] are
    the chunks read from the stream, in order and whole: each client is
    sent the stream's bytes once. *)
Theorem read_sends_stream_to_client s c :
  NoDup (handles (clients_ s)) → c ∈ clients_ s →
  ∃ s', read (read_fuel s) s = Some s'
    ∧ tcp_sent_to (handle (tcp_client c)) (since s s')
      = concat (uart_chunks (since s s')).
Proof.
  intros Hnd Hc.
  destruct (read_full (read_fuel s) s) as (s' & new & Hr & Ht & _ & _ & _ & _ & _ & Hsent).
  { unfold read_fuel. lia. }
  exists s'. rewrite (since_app _ _ _ Ht). split; [done | by apply Hsent].
Qed.

Lemma read_sends_stream_to_client_witness :
  ∃ s', read (read_fuel (set_clients [Examples.c2; Examples.c3] Examples.two_lines_state))
          (set_clients [Examples.c2; Examples.c3] Examples.two_lines_state) = Some s'
    ∧ tcp_sent_to 3 (since (set_clients [Examples.c2; Examples.c3] Examples.two_lines_state) s')
      = concat (uart_chunks
                  (since (set_clients [Examples.c2; Examples.c3] Examples.two_lines_state) s')).
Proof.
  apply (read_sends_stream_to_client
           (set_clients [Examples.c2; Examples.c3] Examples.two_lines_state) Examples.c3).
  - apply (bool_decide_unpack _); vm_compute; exact I.
  - apply (bool_decide_unpack _); vm_compute; exact I.
Defined.

End read_theorems.

(** ** Ticks and runs *)

Section runs.
Implicit Types (s : State) (c : Client) (e : Event).

Lemma write_published (uart_api : bool) s s' :
  write uart_api s = Some s' →
  published (trace s') = published (trace s) ∧ framer s' = framer s.
Proof.
  destruct (write_spec uart_api s) as (s2 & new & Hw & Ht & Hu & _ & _ & _ & Hf & _).
  intros Hw'. rewrite Hw in Hw'. injection Hw' as <-. split; [|done].
  rewrite Ht, published_app.
  enough (published new = []) as -> by by rewrite app_nil_r.
  clear Hu. destruct uart_api; simpl in Hw.
  - injection Hw as <-. simpl in Ht. by apply app_inv_head in Ht as <-.
  - destruct (decide (0 < length (recv_buf_ s))); simpl in Hw.
    + rewrite drop_all, decide_False in Hw by (simpl; lia).
      injection Hw as <-. simpl in Ht. by apply app_inv_head in Ht as <-.
    + injection Hw as <-. rewrite <- (app_nil_r (trace s)) in Ht at 1.
      by apply app_inv_head in Ht as <-.
Qed.

(** What a tick does to the framer and the sensor. *)
Lemma loop_published (uart_api : bool) s s' :
  loop uart_api s = Some s' →
  ∃ chunks, published (trace s') = published (trace s)
                                   ++ omap id (feed_chunks chunks (framer s)).1
    ∧ framer s' = (feed_chunks chunks (framer s)).2.
Proof.
  destruct (cleanup_spec s) as (s1 & dead & Hc & _ & _ & Ht1 & _ & _ & Hf1).
  destruct (read_full (read_fuel s1) s1) as (s2 & new & Hr & Ht2 & Hpub & Hfr & _).
  { unfold read_fuel. lia. }
  unfold loop. rewrite Hc. cbn [mbind option_bind]. rewrite Hr. cbn [mbind option_bind].
  intros [Hp3 Hf3]%write_published.
  destruct (cleanup_effects_silent dead) as (_ & _ & _ & Hp1).
  exists (uart_chunks new). rewrite Hf1 in Hpub, Hfr. split.
  - by rewrite Hp3, Ht2, published_app, Ht1, published_app, Hp1, app_nil_r, Hpub.
  - by rewrite Hf3.
Qed.

Lemma feed_chunks_good (chunks : list (list byte)) (st : Framer.t) :
  tidy st →
  tidy (feed_chunks chunks st).2
  ∧ Forall good_line (omap id (feed_chunks chunks st).1).
Proof.
  revert st. induction chunks as [|chunk chunks IH]; intros st Htidy; [done |].
  cbn [feed_chunks].
  destruct (readline_tidy chunk st Htidy) as [Ht1 Hgood].
  destruct (Framer.readline chunk st) as [r st1]. simpl in *.
  destruct (IH st1 Ht1) as [Ht2 Hall].
  destruct (feed_chunks chunks st1) as [rs st2]. simpl in *.
  split; [done |]. destruct r as [l|]; simpl; [|done].
  apply Forall_cons_2; [by apply Hgood | done].
Qed.

Lemma run_cons (uart_api : bool) e (es : list Event) s :
  run uart_api (e :: es) s = step uart_api e s ≫= run uart_api es.
Proof.
  unfold run. simpl. destruct (step uart_api e s) as [s1|]; [done |].
  simpl. induction es as [|e' es IH]; [done | by simpl].
Qed.

Lemma run_app (uart_api : bool) (es1 es2 : list Event) s :
  run uart_api (es1 ++ es2) s = run uart_api es1 s ≫= run uart_api es2.
Proof.
  revert s. induction es1 as [|e es1 IH]; intros s; [done |].
  rewrite <- app_comm_cons, !run_cons.
  destruct (step uart_api e s) as [s1|]; [by apply IH | done].
Qed.

(** The invariant of a run: a tidy framer and only good lines published. *)
Lemma step_good_lines (uart_api : bool) e s s' :
  step uart_api e s = Some s' →
  tidy (framer s) ∧ Forall good_line (published (trace s)) →
  tidy (framer s') ∧ Forall good_line (published (trace s')).
Proof.
  intros Hstep [Htidy Hgood].
  destruct e as [[client|]|h|h|h|h data len| |discards]; simpl in Hstep.
  - injection Hstep as <-. simpl. rewrite published_app. simpl.
    by rewrite app_nil_r.
  - by injection Hstep as <-.
  - by injection Hstep as <-.
  - by injection Hstep as <-.
  - by injection Hstep as <-.
  - destruct (decide (Exists (owns h) (clients_ s))).
    + destruct (on_data data len (recv_buf_ s)); simpl in Hstep; [|done].
      by injection Hstep as <-.
    + by injection Hstep as <-.
  - apply loop_published in Hstep as (chunks & -> & ->).
    destruct (feed_chunks_good chunks (framer s) Htidy) as [Ht Hall].
    split; [done |]. by apply Forall_app.
  - injection Hstep as <-.
    destruct (on_shutdown_spec discards s) as (_ & Ht & _ & _ & Hf).
    rewrite Hf, Ht, published_app.
    unfold published at 2. rewrite omap_fmap_none by done.
    by rewrite app_nil_r.
Qed.

(** X12: whatever the events after [setup()] (connections accepted,
    callbacks, ticks, shutdown, in any order and with any bytes on the
    stream), every line handed to the sensor has at most [LINE_SIZE - 1]
    bytes and holds no carriage return, no line feed and no zero byte. *)
Theorem published_lines_good (uart_api : bool) (es : list Event) (uart : Stream.t) s :
  run uart_api es (setup uart) = Some s →
  Forall good_line (published (trace s)).
Proof.
  intros Hrun.
  enough (Hinv : ∀ s0, tidy (framer s0) ∧ Forall good_line (published (trace s0)) →
                       run uart_api es s0 = Some s →
                       tidy (framer s) ∧ Forall good_line (published (trace s))).
  { apply (Hinv (setup uart)); [|done]. split; [apply tidy_init | by simpl]. }
  clear Hrun. induction es as [|e es IH]; intros s0 Hinv Hrun.
  - by injection Hrun as <-.
  - rewrite run_cons in Hrun.
    destruct (step uart_api e s0) as [s1|] eqn:Hstep; [|done].
    eapply IH; [|exact Hrun]. by eapply step_good_lines.
Qed.

Lemma published_lines_good_witness :
  ∃ s, run true [EvClient (Some {| handle := 1; remoteIP := "10.0.0.1" |});
                 EvLoop; EvLoop]
         (setup {| Stream.rx := [x61; x0a];
                   Stream.incoming := [[]; [x62; x00; x0d; x63]] |}) = Some s
    ∧ Forall good_line (published (trace s)).
Proof.
  destruct (run true [EvClient (Some {| handle := 1; remoteIP := "10.0.0.1" |});
                      EvLoop; EvLoop]
              (setup {| Stream.rx := [x61; x0a];
                        Stream.incoming := [[]; [x62; x00; x0d; x63]] |}))
    as [s|] eqn:Hrun; [| vm_compute in Hrun; discriminate].
  exists s. split; [reflexivity | exact (published_lines_good _ _ _ _ Hrun)].
Defined.

(** X13: two ticks in a row, with no data callback in between: the bytes
    that were in the receive buffer go to the stream in the first tick, and
    the second tick writes no byte to the stream. *)
Theorem loop_twice_writes_once (uart_api : bool) s :
  ∃ s1 s2, loop uart_api s = Some s1 ∧ loop uart_api s1 = Some s2
    ∧ uart_written (since s s1) = recv_buf_ s
    ∧ uart_written (since s1 s2) = [].
Proof.
  destruct (loop_spec uart_api s) as (s1 & new1 & Hl1 & Ht1 & _ & _ & Hu1 & Hb1).
  destruct (loop_spec uart_api s1) as (s2 & new2 & Hl2 & Ht2 & _ & _ & Hu2 & _).
  exists s1, s2. rewrite (since_app _ _ _ Ht1), (since_app _ _ _ Ht2).
  by rewrite Hu2, Hb1.
Qed.

(** X14: connections accepted one after the other are registered in the
    order they were accepted, behind the clients already registered, each
    with its [disconnected] flag clear; null connections among them leave
    no entry. *)
Theorem accept_all_in_order (conns : list (option AsyncClient)) s :
  clients_ (accept_all conns s)
  = clients_ s
    ++ ((λ client, {| tcp_client := client;
                      identifier := remoteIP client;
                      disconnected := false |}) <$> omap id conns).
Proof.
  unfold accept_all. revert s.
  induction conns as [|[client|] conns IH]; intros s; simpl.
  - by rewrite app_nil_r.
  - rewrite IH. simpl. by rewrite <- app_assoc.
  - apply IH.
Qed.

Lemma on_data_payload (data : option (list byte)) (len : nat) (buf b : list byte) :
  on_data data len buf = Some b → b = buf ++ payload data len.
Proof.
  unfold on_data, payload. destruct (decide (len = 0)).
  - intros [= <-]. by rewrite app_nil_r.
  - destruct data as [mem|].
    + destruct (decide (len ≤ length mem)); [by intros [= <-] | done].
    + intros [= <-]. by rewrite app_nil_r.
Qed.

(** Data callbacks of registered connections only extend the receive
    buffer. *)
Lemma run_data (uart_api : bool) (datas : list (nat * option (list byte) * nat)) s s' :
  Forall (λ d, Exists (owns d.1.1) (clients_ s)) datas →
  run uart_api ((λ d, EvData d.1.1 d.1.2 d.2) <$> datas) s = Some s' →
  s' = set_recv_buf (recv_buf_ s ++ concat ((λ d, payload d.1.2 d.2) <$> datas)) s.
Proof.
  intros Hreg. revert s Hreg.
  induction datas as [|[[h data] len] datas IH]; intros s Hreg Hrun.
  - injection Hrun as <-. simpl. rewrite app_nil_r. by destruct s.
  - apply Forall_cons in Hreg as [Hh Hreg]. simpl in Hh.
    rewrite fmap_cons, run_cons in Hrun. simpl in Hrun.
    rewrite decide_True in Hrun by done.
    destruct (on_data data len (recv_buf_ s)) as [b|] eqn:Hb; [|done].
    simpl in Hrun. apply on_data_payload in Hb as ->.
    apply IH in Hrun; [|done]. rewrite Hrun. simpl. by rewrite <- app_assoc.
Qed.

(** X15: data callbacks of registered connections followed by a tick: the
    tick hands to the stream what was in the receive buffer before,
    followed by the payloads in the order of the callbacks, each payload
    whole, and leaves the buffer empty. *)
Theorem data_then_loop (uart_api : bool)
    (datas : list (nat * option (list byte) * nat)) s s' :
  Forall (λ d, Exists (owns d.1.1) (clients_ s)) datas →
  run uart_api (((λ d, EvData d.1.1 d.1.2 d.2) <$> datas) ++ [EvLoop]) s = Some s' →
  uart_written (since s s')
  = recv_buf_ s ++ concat ((λ d, payload d.1.2 d.2) <$> datas)
  ∧ recv_buf_ s' = [].
Proof.
  intros Hreg Hrun. rewrite run_app in Hrun.
  destruct (run uart_api ((λ d, EvData d.1.1 d.1.2 d.2) <$> datas) s)
    as [s1|] eqn:Hdata; [|done].
  apply run_data in Hdata as ->; [|done].
  simpl in Hrun. unfold run in Hrun. simpl in Hrun.
  set (s1 := set_recv_buf _ s) in *.
  destruct (loop_spec uart_api s1) as (s2 & new & Hl & Ht & _ & _ & Hu & Hb).
  rewrite Hl in Hrun. injection Hrun as <-.
  split; [|done]. change (trace s1) with (trace s) in Ht.
  by rewrite (since_app _ _ _ Ht), Hu.
Qed.

Lemma data_then_loop_witness :
  ∃ s', run true [EvData 2 (Some [x61; x62; x63]) 2; EvData 3 None 4;
                  EvData 3 (Some [x64]) 1; EvLoop] Examples.registry_state = Some s'
    ∧ uart_written (since Examples.registry_state s') = [x61; x62; x64].
Proof.
  destruct (run true [EvData 2 (Some [x61; x62; x63]) 2; EvData 3 None 4;
                      EvData 3 (Some [x64]) 1; EvLoop] Examples.registry_state)
    as [s'|] eqn:Hrun; [| vm_compute in Hrun; discriminate].
  exists s'. split; [reflexivity |].
  refine (proj1 (data_then_loop true
            [(2, Some [x61; x62; x63], 2); (3, None, 4); (3, Some [x64], 1)]
            Examples.registry_state s' _ Hrun)).
  repeat apply Forall_cons_2; [| | | apply Forall_nil_2];
    apply (bool_decide_unpack _); vm_compute; exact I.
Defined.

(** X16: a step taken while the environment keeps its word (connection
    objects alive at the same time have distinct addresses, an accepted
    connection is a new object) leaves no connection registered twice:
    accepting appends one new connection, callbacks keep the connection of
    their client, and the loop only removes entries. *)
Theorem registry_connections_stay_distinct (uart_api : bool) e s s' :
  env_ok e s → step uart_api e s = Some s' → NoDup (handles (clients_ s')).
Proof. exact (step_handles_nodup uart_api e s s'). Qed.

Lemma registry_connections_stay_distinct_witness :
  NoDup (handles (clients_ (on_client (Some {| handle := 4; remoteIP := "10.0.0.4" |})
                              Examples.registry_state))).
Proof.
  apply (registry_connections_stay_distinct true
           (EvClient (Some {| handle := 4; remoteIP := "10.0.0.4" |}))
           Examples.registry_state).
  - apply (bool_decide_unpack _); vm_compute; exact I.
  - reflexivity.
Defined.

End runs.
